(** * DataTileIndexer: a shallow embedding of
      packages/core/src/DataTileIndexer.js

    The development follows the source file function by function:
    [getBaseTable], [getIndexColumns], [binFunction], [binInterval],
    [getActiveView], [createIndex] and the three methods of the class
    ([index], [update], [updateClient]).

    - JavaScript numbers are IEEE 754 binary64 values: [spec_float] with the
      operations of the standard library's [SpecFloat] at precision 53.
    - JavaScript exceptions are explicit: a computation is a [js A], either
      [Ret a] or [Throw TypeError].
    - The indexer object is a record of its four fields; the methods are
      state-passing functions that also return the effects they had on the
      outside world (console output, statements sent to the executor, queries
      handed to clients). *)

From Stdlib Require Import ZArith List String Ascii Bool Lia QArith Qround Qpower Qabs Lqa.
From Stdlib Require Import Floats.SpecFloat.
From stdpp Require Import base option list gmap strings pretty.

Set Warnings "-register-all".
Local Open Scope string_scope.
Local Open Scope list_scope.

(* ===================================================================== *)
(** * JavaScript values and exceptions *)
(* ===================================================================== *)

Module JS.

Inductive exn := TypeError.

Inductive js (A : Type) : Type :=
| Ret (a : A)
| Throw (e : exn).
Arguments Ret {A} a.
Arguments Throw {A} e.

Definition bind {A B} (m : js A) (k : A -> js B) : js B :=
  match m with
  | Ret a => k a
  | Throw e => Throw e
  end.

(** [xs.map(f)] where [f] may throw: elements are visited left to right and
    the first exception aborts the traversal. *)
Fixpoint mapM {A B} (f : A -> js B) (xs : list A) : js (list B) :=
  match xs with
  | [] => Ret []
  | x :: xs' => bind (f x) (fun y => bind (mapM f xs') (fun ys => Ret (y :: ys)))
  end.

(** [String.prototype.toUpperCase] on ASCII text. *)
Definition upper_ascii (c : ascii) : ascii :=
  let n := nat_of_ascii c in
  if (97 <=? n)%nat && (n <=? 122)%nat then ascii_of_nat (n - 32) else c.

Fixpoint toUpperCase (s : string) : string :=
  match s with
  | EmptyString => EmptyString
  | String c s' => String (upper_ascii c) (toUpperCase s')
  end.

(** The double-quote character (code 34). *)
Definition dquote : string := String (ascii_of_nat 34) EmptyString.

End JS.
Import JS.

#[global] Instance js_ret : MRet js := @Ret.
#[global] Instance js_bind : MBind js := fun A B k m => bind m k.

(* ===================================================================== *)
(** * Queries, as the indexer observes them *)
(* ===================================================================== *)

(** The query builder is an external collaborator.  The indexer looks at a
    query through five members only: whether it has a [select] method (a
    select query has one, a set operation such as a union has none), the
    list [from()], the list [groupby()] (a method of select queries only),
    the list [select()] and the list [subqueries]. *)

(** One entry of [q.select()]: [{ as, expr: { aggregate } }]; [aggregate] is
    [undefined] on an expression that is not an aggregate call.  These are
    the entries the query builder makes: [expr] is an object and
    [aggregate] a string or [undefined]; an entry without [expr], or with
    an [aggregate] of another type, on which lines 204-205 throw, is not
    one of them. *)
Record SelectItem := {
  si_as : string;
  si_aggregate : option string
}.

(** One entry of [q.from()]: [{ as, from }], where [from.table] is the table
    name of a table reference and [undefined] otherwise. *)
Record FromEntry := {
  fe_as : string;
  fe_table : option string
}.

Inductive Query :=
| SelectQuery (select : list SelectItem) (from : list FromEntry)
              (groupby : list (option string)) (subqueries : list Query)
| SetOperation (subqueries : list Query).

(** The three kinds of value [getBaseTable] returns. *)
Inductive BaseTable :=
| BUndefined                (* undefined: no table found *)
| BTable (t : string)       (* a table name *)
| BNaN.                     (* NaN: incompatible branches *)

(** [x === undefined] *)
Definition is_undefined (b : BaseTable) : bool :=
  match b with BUndefined => true | _ => false end.

(** [x === y]; NaN is not equal to anything, itself included. *)
Definition strict_eq (x y : BaseTable) : bool :=
  match x, y with
  | BUndefined, BUndefined => true
  | BTable s, BTable t => String.eqb s t
  | _, _ => false
  end.

(** [!x]: undefined, NaN and the empty string are falsy. *)
Definition falsy (b : BaseTable) : bool :=
  match b with
  | BUndefined | BNaN => true
  | BTable t => String.eqb t ""
  end.

Definition table_of (f : FromEntry) : BaseTable :=
  match fe_table f with
  | Some t => BTable t
  | None => BUndefined
  end.

(** [getBaseTable(query)], lines 234-252.  [subq[0]] of an empty array is
    [undefined], on which the recursive call reads [.subqueries] and
    throws. *)
Fixpoint getBaseTable (query : Query) : js BaseTable :=
  let fix loop (base : BaseTable) (rest : list Query) : js BaseTable :=
    match rest with
    | [] => Ret base
    | q :: rest' =>
        match getBaseTable q with
        | Throw e => Throw e
        | Ret from =>
            if is_undefined from then loop base rest'
            else if negb (strict_eq from base) then Ret BNaN
            else loop base rest'
        end
    end in
  let set_operations (subq : list Query) : js BaseTable :=
    match subq with
    | [] => Throw TypeError
    | q0 :: rest =>
        match getBaseTable q0 with
        | Throw e => Throw e
        | Ret base => loop base rest
        end
    end in
  match query with
  | SelectQuery _ from _ subq =>
      match from with
      | [] => Ret BUndefined
      | f0 :: _ =>
          match subq with
          | [] => Ret (table_of f0)
          | _ :: _ => set_operations subq
          end
      end
  | SetOperation subq => set_operations subq
  end.

(** The loop of lines 246-250, on the results of the later branches. *)
Fixpoint merge_branches (base : BaseTable) (rest : list Query) : js BaseTable :=
  match rest with
  | [] => Ret base
  | q :: rest' =>
      match getBaseTable q with
      | Throw e => Throw e
      | Ret from =>
          if is_undefined from then merge_branches base rest'
          else if negb (strict_eq from base) then Ret BNaN
          else merge_branches base rest'
      end
  end.

(* ===================================================================== *)
(** * Query shape analysis: getIndexColumns *)
(* ===================================================================== *)

(** A client, as far as the indexer is concerned: an identity (clients are
    the keys of the index map), the query [client.query()] builds without a
    filter, and the [filterIndexable] flag. *)
Record Client := {
  client_id : nat;
  client_query : Query;
  filterIndexable : bool
}.

(** The object a successful analysis returns.  [aggr] is the array of
    one-key objects [{ [as]: expr(text) }], kept as pairs of the key and the
    SQL text; [count] is [{}] or [{ _count_: expr('COUNT(_)') }]. *)
Record Shape := {
  aggr : list (string * string);
  dims : list string;
  count : list (string * string);
  from : BaseTable
}.

Inductive IndexColumns :=
| ICNull                    (* null *)
| ICEarlyExit               (* { from: NaN } *)
| ICShape (s : Shape).

(** The text of the count expression, [COUNT] applied to a star. *)
Definition count_star : string := "COUNT(" ++ "*" ++ ")".

Definition sum_text (as_ : string) : string :=
  "SUM(" ++ dquote ++ as_ ++ dquote ++ ")::DOUBLE".
Definition avg_text (as_ count : string) : string :=
  "(SUM(" ++ dquote ++ as_ ++ dquote ++ " * " ++ count ++ ") / SUM(" ++ count ++ "))::DOUBLE".
Definition max_text (as_ : string) : string :=
  "MAX(" ++ dquote ++ as_ ++ dquote ++ ")".
Definition min_text (as_ : string) : string :=
  "MIN(" ++ dquote ++ as_ ++ dquote ++ ")".

(** The loop of lines 204-224 with its three accumulators; [None] is the
    [return null] of the default case. *)
Fixpoint select_loop (g : gset string) (items : list SelectItem)
    (aggr : list (string * string)) (dims : list string) (count : option string)
    : option (list (string * string) * list string * option string) :=
  match items with
  | [] => Some (aggr, dims, count)
  | {| si_as := as_; si_aggregate := aggregate |} :: rest =>
      let default :=
        if decide (as_ ∈ g) then select_loop g rest aggr (dims ++ [as_]) count
        else None in
      match toUpperCase <$> aggregate with
      | Some up =>
          if String.eqb up "COUNT" || String.eqb up "SUM" then
            select_loop g rest (aggr ++ [(as_, sum_text as_)]) dims count
          else if String.eqb up "AVG" then
            let count' := "_count_" in
            select_loop g rest (aggr ++ [(as_, avg_text as_ count')]) dims (Some count')
          else if String.eqb up "MAX" then
            select_loop g rest (aggr ++ [(as_, max_text as_)]) dims count
          else if String.eqb up "MIN" then
            select_loop g rest (aggr ++ [(as_, min_text as_)]) dims count
          else default
      | None => default
      end
  end.

(** [new Set(q.groupby().map(c => c.column))], as far as [has] on a string
    can tell. *)
Definition grouping_set (groupby : list (option string)) : gset string :=
  list_to_set (omap id groupby).

(** [q.groupby] is a method of select queries; a set operation has none. *)
Definition has_groupby (q : Query) : bool :=
  match q with
  | SelectQuery _ _ _ _ => true
  | SetOperation _ => false
  end.

(** [getIndexColumns(client)], lines 192-232. *)
Definition getIndexColumns (client : Client) : js IndexColumns :=
  let q := client_query client in
  from ← getBaseTable q;
  if falsy from || negb (has_groupby q) || negb (filterIndexable client)
  then Ret ICEarlyExit
  else
    match q with
    | SetOperation _ => Throw TypeError     (* not reached: no groupby *)
    | SelectQuery select _ groupby _ =>
        let g := grouping_set groupby in
        match select_loop g select [] [] None with
        | None => Ret ICNull
        | Some (aggr, dims, count) =>
            Ret (ICShape {|
              aggr := aggr;
              dims := dims;
              count := match count with
                       | Some c => [(c, count_star)]
                       | None => []
                       end;
              from := from |})
        end
    end.

(* ===================================================================== *)
(** * Numbers *)
(* ===================================================================== *)

(** A JavaScript number is a binary64 value. *)
Abbreviation number := spec_float.

Module Num.

Definition prec : Z := 53.
Definition emax : Z := 1024.

Definition sub : number -> number -> number := SFsub prec emax.   (* x - y *)
Definition mul : number -> number -> number := SFmul prec emax.   (* x * y *)
Definition div : number -> number -> number := SFdiv prec emax.   (* x / y *)

Definition of_Z (z : Z) : number := binary_normalize prec emax z 0 false.

Definition isFinite (x : number) : bool :=
  match x with
  | S754_zero _ | S754_finite _ _ _ => true
  | S754_infinity _ | S754_nan => false
  end.

Definition is_zero (x : number) : bool :=
  match x with S754_zero _ => true | _ => false end.

(** The sign bit; [false] on NaN. *)
Definition signbit (x : number) : bool :=
  match x with
  | S754_zero s | S754_infinity s | S754_finite s _ _ => s
  | S754_nan => false
  end.

Definition Math_abs : number -> number := SFabs.
Definition Math_sqrt : number -> number := SFsqrt prec emax.

(** [Math.min] and [Math.max]: NaN if either argument is NaN, and -0 is
    smaller than +0. *)
Definition Math_min (x y : number) : number :=
  match SFcompare x y with
  | None => S754_nan
  | Some Lt => x
  | Some Gt => y
  | Some Eq => match x with S754_zero true => x | _ => y end
  end.

Definition Math_max (x y : number) : number :=
  match SFcompare x y with
  | None => S754_nan
  | Some Gt => x
  | Some Lt => y
  | Some Eq => match x with S754_zero false => x | _ => y end
  end.

(** [Math.sign]: NaN, the zero itself, 1 or -1. *)
Definition Math_sign (x : number) : number :=
  match x with
  | S754_nan | S754_zero _ => x
  | S754_infinity s | S754_finite s _ _ => if s then of_Z (-1) else of_Z 1
  end.

End Num.
Import Num.

(** [Math.log] and [Math.log1p] are implementation-approximated functions of
    the JavaScript engine: they are taken as given. *)
Class JSEngine := {
  Math_log : number -> number;
  Math_log1p : number -> number
}.

(* ===================================================================== *)
(** * The binning engine: binFunction and binInterval *)
(* ===================================================================== *)

(** What a bin function is applied to: a string (a column name), a number,
    a Date (with its time value in milliseconds), or any other object, of
    which only its SQL text and its [columns] member are looked at. *)
Inductive Value :=
| VCol (name : string)
| VNum (x : number)
| VDate (ms : number)
| VOther (text : string) (columns : option (list string)).

(** [c instanceof Date] *)
Definition instanceofDate (c : Value) : bool :=
  match c with VDate _ => true | _ => false end.

(** [+c]: the time value of a Date, a number as it is, NaN for a name. *)
Definition unary_plus (c : Value) : number :=
  match c with
  | VDate ms => ms
  | VNum x => x
  | VCol _ | VOther _ _ => S754_nan
  end.

(** The SQL text the bin functions build, as a syntax tree.  Each
    constructor stands for one piece of a template literal of the source:
    - [SRef c]       the interpolation of [asColumn(c)]: the column a string
                     names, any other value as it is;
    - [SLit x]       the interpolation of the number [x];
    - [SCast e]      [e::DOUBLE];
    - [SLn e]        [LN(e)];       [SSqrt e]  [SQRT(e)];
    - [SSign e]      [SIGN(e)];     [SAbs e]   [ABS(e)];
    - [SOnePlus e]   [1 + e];
    - [SEpochMs e]   [epoch_ms(e)], the milliseconds of a timestamp;
    - [SMul e1 e2]   [e1 * e2];     [SMinus e1 e2]  [(e1 - e2)];
    - [SFloor e]     [FLOOR(e)]. *)
Inductive Sql :=
| SRef (c : Value)
| SLit (x : number)
| SCast (e : Sql)
| SLn (e : Sql)
| SSqrt (e : Sql)
| SSign (e : Sql)
| SAbs (e : Sql)
| SOnePlus (e : Sql)
| SEpochMs (e : Sql)
| SMul (e1 e2 : Sql)
| SMinus (e1 e2 : Sql)
| SFloor (e : Sql).

(** [expr(text, columns)]: an SQL expression and the columns it depends on. *)
Record Expr := {
  expr_sql : Sql;
  expr_columns : option (list string)
}.

(** [asColumn(value).columns]: the column itself for a column name,
    [undefined] for a number or a Date, the object's own member otherwise. *)
Definition columns_of (value : Value) : option (list string) :=
  match value with
  | VCol name => Some [name]
  | VNum _ | VDate _ => None
  | VOther _ columns => columns
  end.

Record Scale := {
  scale_type : string;
  domain : number * number;
  range : number * number
}.

(** [binFunction(domain, range, lift, sql)], lines 174-182. *)
Definition binFunction (domain range : number * number)
    (lift : number -> number) (sql : Value -> Sql) : Value -> Expr :=
  let lo := lift (Math_min (fst domain) (snd domain)) in
  let hi := lift (Math_max (fst domain) (snd domain)) in
  let a := div (Math_abs (sub (lift (snd range)) (lift (fst range)))) (sub hi lo) in
  fun value =>
    {| expr_sql := SFloor (SMul (SCast (SLit a))
                                (SMinus (sql value) (SCast (SLit lo))));
       expr_columns := columns_of value |}.

(** The three constants of lines 175-177, by name. *)
Definition bin_lo (domain : number * number) (lift : number -> number) : number :=
  lift (Math_min (fst domain) (snd domain)).
Definition bin_hi (domain : number * number) (lift : number -> number) : number :=
  lift (Math_max (fst domain) (snd domain)).
Definition bin_a (domain range : number * number) (lift : number -> number) : number :=
  div (Math_abs (sub (lift (snd range)) (lift (fst range))))
      (sub (bin_hi domain lift) (bin_lo domain lift)).

Section Binning.
Context `{JSEngine}.

(** The [switch] of lines 147-170: the pair [(lift, sql)] of a scale type,
    [None] when the type matches no case and [lift] stays [undefined]. *)
Definition scale_transform (type : string)
    : option ((number -> number) * (Value -> Sql)) :=
  if String.eqb type "linear" then
    Some (fun x => x, SRef)
  else if String.eqb type "log" then
    Some (Math_log, fun c => SLn (SRef c))
  else if String.eqb type "symlog" then
    Some (fun x => mul (Math_sign x) (Math_log1p (Math_abs x)),
          fun c => SMul (SSign (SRef c)) (SLn (SOnePlus (SAbs (SRef c)))))
  else if String.eqb type "sqrt" then
    Some (Math_sqrt, fun c => SSqrt (SRef c))
  else if String.eqb type "utc" || String.eqb type "time" then
    Some (fun x => x,
          fun c => if instanceofDate c then SLit (unary_plus c)
                   else SEpochMs (SRef c))
  else None.

(** [binInterval(scale)], lines 143-172. *)
Definition binInterval (scale : Scale) : option (Value -> Expr) :=
  match scale_transform (scale_type scale) with
  | Some (lift, sql) => Some (binFunction (domain scale) (range scale) lift sql)
  | None => None
  end.

End Binning.

(* ===================================================================== *)
(** * Active views: getActiveView *)
(* ===================================================================== *)

(** An element of [predicate.value]: the element itself (a number when the
    value is one range [[lo, hi]]), and its members [expr] and [value] (those
    of a per-scale range when the value is a list of ranges; [undefined] on
    a number). *)
Record Item := {
  it_self : Value;
  it_expr : option Value;
  it_value : option (list Value)
}.

(** A clause's predicate, through the members the indexer reads. *)
Record Predicate := {
  p_columns : option (list string);
  p_expr : option Value;
  p_value : option (list Item)
}.

Record Schema := {
  schema_type : string;
  scales : option (list Scale)
}.

(** A selection clause; [source] is the identity of the object that emitted
    it, [None] when the member is missing. *)
Record Clause := {
  source : option nat;
  schema : option Schema;
  predicate : option Predicate
}.

(** The [where] argument of an update query.  [isBetween] and [and] are the
    query builder's and stay constructors. *)
Inductive Filter :=
| FEmpty                                      (* [] *)
| FIsBetween (column : string) (range : list Expr)
| FAnd (conjuncts : list Filter)
| FPredicate (p : Predicate).                 (* a clause's own predicate *)

(** The three closures [getActiveView] stores in [predicate], with the bin
    functions they capture. *)
Inductive ViewPredicate :=
| ByInterval (bin0 : Value -> Expr)           (* line 123 *)
| ByIntervals (bins : list (Value -> Expr))   (* lines 126-128 *)
| ByIdentity.                                 (* line 134 *)

Record ActiveView := {
  view_source : option nat;
  view_columns : list (string * Expr);
  view_predicate : ViewPredicate
}.

(** Calling a bin function on a member that may be [undefined]: reading
    [asColumn(undefined).columns] throws. *)
Definition call_bin (bin : option (Value -> Expr)) (value : option Value) : js Expr :=
  match bin, value with
  | Some f, Some v => Ret (f v)
  | _, _ => Throw TypeError
  end.

(** [activeView.predicate(p)]; the result is [undefined] or [null] ([None])
    only for the identity closure. *)
Definition apply_predicate (vp : ViewPredicate) (p : option Predicate)
    : js (option Filter) :=
  match vp with
  | ByIdentity => Ret (FPredicate <$> p)
  | ByInterval bin0 =>
      match p with
      | None => Ret (Some FEmpty)
      | Some p =>
          match p_value p with
          | None => Throw TypeError
          | Some items => Ret (Some (FIsBetween "active0" (map (fun it => bin0 (it_self it)) items)))
          end
      end
  | ByIntervals bins =>
      match p with
      | None => Ret (Some FEmpty)
      | Some p =>
          match p_value p with
          | None => Throw TypeError
          | Some items =>
              fs ← mapM (fun x => x)
                    (imap (fun i it =>
                             match it_value it, bins !! i with
                             | Some value, Some bin =>
                                 Ret (FIsBetween ("active" +:+ pretty i) (map bin value))
                             | _, _ => Throw TypeError
                             end) items);
              Ret (Some (FAnd fs))
          end
      end
  end.

Section ActiveViews.
Context `{JSEngine}.

(** [getActiveView(clause)], lines 111-141. *)
Definition getActiveView (clause : Clause) : js (option ActiveView) :=
  match schema clause, predicate clause with
  | Some sch, Some p =>
      match p_columns p with
      | None => Ret None
      | Some columns =>
          (* type === 'interval' && scales *)
          match (if String.eqb (schema_type sch) "interval" then scales sch else None) with
          | Some scales' =>
              let bins := map binInterval scales' in
              if existsb (fun b => negb (bool_decide (is_Some b))) bins
              then Ret None                            (* unsupported scale type *)
              else
                match omap id bins with
                | [bin0] =>
                    e ← call_bin (Some bin0) (p_expr p);
                    Ret (Some {| view_source := source clause;
                                 view_columns := [("active0", e)];
                                 view_predicate := ByInterval bin0 |})
                | bins' =>
                    match p_value p with
                    | None => Throw TypeError
                    | Some items =>
                        cols ← mapM (fun x => x)
                                (imap (fun i it =>
                                         e ← call_bin (bins' !! i) (it_expr it);
                                         Ret ("active" +:+ pretty i, e)) items);
                        Ret (Some {| view_source := source clause;
                                     view_columns := cols;
                                     view_predicate := ByIntervals bins' |})
                    end
                end
          | None =>
              if String.eqb (schema_type sch) "point" then
                Ret (Some {| view_source := source clause;
                             view_columns :=
                               map (fun col => (col, {| expr_sql := SRef (VCol col);
                                                        expr_columns := Some [col] |}))
                                   columns;
                             view_predicate := ByIdentity |})
              else Ret None                            (* unsupported type *)
          end
      end
  | _, _ => Ret None
  end.

End ActiveViews.

(* ===================================================================== *)
(** * The indexer object *)
(* ===================================================================== *)

(** The set of clients passed to [index]: an object identity (the source
    compares sets with [!==]) and the members in iteration order. *)
Record ClientSet := {
  set_id : nat;
  members : list Client
}.

(** The selection the indexer was constructed with, as it stands when a
    method runs: its [active] clause and its [cross] flag. *)
Record Selection := {
  sel_active : option Clause;
  sel_cross : bool
}.

(** The value stored in the index map: [{ table, ...index }]. *)
Record IndexEntry := {
  table : string;
  index_columns : IndexColumns
}.

(** The four fields [reset] initialises.  The index map is keyed by client
    identity. *)
Record Indexer := {
  enabled : bool;
  clients : option ClientSet;
  indices : option (gmap nat IndexEntry);
  activeView : option ActiveView
}.

(** The query [updateClient] hands to the coordinator:
    [Query.select(dims, aggr).from(table).groupby(dims).where(filter)]. *)
Record TileQuery := {
  tq_dims : option (list string);
  tq_aggr : option (list (string * string));
  tq_table : string;
  tq_where : option Filter
}.

(** What a method does to the outside world, in order. *)
Inductive Effect :=
| ConsoleWarn (message : string)
| Exec (statement : string)                   (* mc.exec(statement) *)
| ConsoleError (statement : string)           (* the caught error of a failed statement *)
| UpdateClient (client : nat) (query : TileQuery).  (* mc.updateClient(client, query) *)

(** The result of running a method: its completion, the indexer afterwards
    and the effects it had. *)
Record Run (A : Type) := {
  outcome : js A;
  final : Indexer;
  effects : list Effect
}.
Arguments outcome {A} r.
Arguments final {A} r.
Arguments effects {A} r.

(** The collaborators of the indexer that live in other modules:
    - [fnv_hash], from util/hash.js;
    - [skipClient], from util/skip-client.js;
    - [generation_sql sel source client columns count]: the text
      [query.toString()] of the index construction query of lines 64-75, which
      the query builder makes from the client's query filtered by the
      selection without the clause of [source], the active view's columns and
      the count column, after [subqueryPushdown];
    - [exec_fails statement]: whether the executor rejects the statement. *)
Class Collaborators := {
  fnv_hash : string -> Z;
  skipClient : Client -> Clause -> bool;
  generation_sql : Selection -> nat -> Client -> list (string * Expr)
                   -> list (string * string) -> string;
  exec_fails : string -> bool
}.

(** [n.toString(16)] for [0 <= n < 2^32]. *)
Definition hex_digit (d : Z) : ascii :=
  if (d <? 10)%Z then ascii_of_nat (48 + Z.to_nat d) else ascii_of_nat (87 + Z.to_nat d).

Fixpoint to_hex_aux (fuel : nat) (n : Z) (acc : string) : string :=
  match fuel with
  | O => acc
  | S fuel' =>
      let acc' := String (hex_digit (n mod 16)) acc in
      if (n / 16 =? 0)%Z then acc' else to_hex_aux fuel' (n / 16) acc'
  end.

Definition to_hex (n : Z) : string := to_hex_aux 8 n "".

(** [x >>> 0] *)
Definition to_uint32 (x : Z) : Z := (x mod 2 ^ 32)%Z.

Definition reset : Indexer :=
  {| enabled := false; clients := None; indices := None; activeView := None |}.

(** [cols[0]?.from] *)
Definition first_from (cols : list IndexColumns) : BaseTable :=
  match cols with
  | ICShape s :: _ => from s
  | ICEarlyExit :: _ => BNaN
  | _ => BUndefined
  end.

(** [c && c.from === from] *)
Definition same_from (from0 : BaseTable) (c : IndexColumns) : bool :=
  match c with
  | ICNull => false
  | ICEarlyExit => strict_eq BNaN from0
  | ICShape s => strict_eq (from s) from0
  end.

(** [index.count] of line 65; reading it on [null] throws, on the early
    exit object it is [undefined] and spreads to nothing. *)
Definition count_of (index : IndexColumns) : js (list (string * string)) :=
  match index with
  | ICNull => Throw TypeError
  | ICEarlyExit => Ret []
  | ICShape s => Ret (count s)
  end.

(** The query of lines 101-107: [dims] and [aggr] are members of the
    entry, [undefined] on an entry made from the early exit object. *)
Definition update_query (entry : IndexEntry) (filter : option Filter) : TileQuery :=
  let shape := match index_columns entry with ICShape s => Some s | _ => None end in
  {| tq_dims := dims <$> shape;
     tq_aggr := aggr <$> shape;
     tq_table := table entry;
     tq_where := filter |}.

(** The statement of line 186. *)
Definition create_statement (table query : string) : string :=
  "CREATE TEMP TABLE IF NOT EXISTS " +:+ table +:+ " AS " +:+ query.

(** [active || this.selection.active] *)
Definition effective_clause (sel : Selection) (active : option Clause) : option Clause :=
  match active with
  | Some a => Some a
  | None => sel_active sel
  end.

Section IndexerMethods.
Context `{JSEngine} `{Collaborators}.

(** [createIndex(mc, table, query)], lines 184-190: the statement goes to
    the executor; a rejection is caught and logged, nothing else.  The
    function is asynchronous and [index] does not await it: the rejection
    is logged after [index] has returned, which the order of the effects
    does not show. *)
Definition createIndex (table query : string) : list Effect :=
  let statement := create_statement table query in
  if exec_fails statement
  then [Exec statement; ConsoleError statement]
  else [Exec statement].

(** The loop of lines 59-80 over the clients still to visit, with the index
    map and the effects so far.  It returns the map and the effects at the
    point where the loop ends or throws. *)
Fixpoint index_loop (sel : Selection) (src : nat) (active : Clause) (view : ActiveView)
    (todo : list Client) (indices : gmap nat IndexEntry) (eff : list Effect)
    : js unit * gmap nat IndexEntry * list Effect :=
  match todo with
  | [] => (Ret tt, indices, eff)
  | client :: todo' =>
      if sel_cross sel && skipClient client active
      then index_loop sel src active view todo' indices eff
      else
        match getIndexColumns client with
        | Throw e => (Throw e, indices, eff)
        | Ret index =>
            match count_of index with
            | Throw e => (Throw e, indices, eff)
            | Ret count =>
                let sql := generation_sql sel src client (view_columns view) count in
                let id := to_hex (to_uint32 (fnv_hash sql)) in
                let table := "tile_index_" +:+ id in
                let indices' := <[client_id client := {| table := table; index_columns := index |}]> indices in
                index_loop sel src active view todo' indices' (eff ++ createIndex table sql)
            end
        end
  end.

(** [index(clients, active)], lines 33-83. *)
Definition index (sel : Selection) (this : Indexer)
    (clients' : ClientSet) (active : option Clause) : Run bool :=
  (* lines 34-42 *)
  let analysed : js Indexer :=
    if bool_decide (set_id <$> clients this = Some (set_id clients'))
    then Ret this
    else
      cols ← mapM getIndexColumns (members clients');
      let from0 := first_from cols in
      Ret {| enabled := forallb (same_from from0) cols;
             clients := Some clients';
             indices := None;
             activeView := None |} in
  match analysed with
  | Throw e => {| outcome := Throw e; final := this; effects := [] |}
  | Ret this1 =>
      if negb (enabled this1)
      then {| outcome := Ret false; final := this1; effects := [] |}
      else
        (* active = active || this.selection.active *)
        match effective_clause sel active with
        | None => {| outcome := Throw TypeError; final := this1; effects := [] |}
        | Some active' =>
            match source active' with
            | None => {| outcome := Ret false; final := this1; effects := [] |}
            | Some src =>
                if bool_decide (Some (Some src) = view_source <$> activeView this1)
                then {| outcome := Ret true; final := this1; effects := [] |}
                else
                  match getActiveView active' with
                  | Throw e => {| outcome := Throw e; final := this1; effects := [] |}
                  | Ret None =>
                      {| outcome := Ret false;
                         final := {| enabled := enabled this1; clients := clients this1;
                                     indices := indices this1; activeView := None |};
                         effects := [] |}
                  | Ret (Some view) =>
                      let '(r, indices', eff) :=
                        index_loop sel src active' view (members clients') ∅
                                   [ConsoleWarn "DATA TILE INDEX CONSTRUCTION"] in
                      {| outcome := _ ← r; Ret true;
                         final := {| enabled := enabled this1; clients := clients this1;
                                     indices := Some indices'; activeView := Some view |};
                         effects := eff |}
                  end
            end
        end
  end.

(** [updateClient(client, filter)], lines 93-108.  The indexer is not
    modified.  The method is asynchronous: [Throw] is the rejection of the
    promise it returns that one of its own steps causes.  Past these steps
    the promise is the coordinator's (line 102), which lives outside this
    file: [Ret tt] with an [UpdateClient] effect says that the query was
    handed to the coordinator, not that the coordinator fulfilled it. *)
Definition updateClient (sel : Selection) (this : Indexer)
    (client : Client) (filter : option Filter) : js unit * list Effect :=
  match indices this with
  | None => (Throw TypeError, [])                    (* this.indices.get on null *)
  | Some indices' =>
      match indices' !! client_id client with
      | None => (Ret tt, [])                         (* if (!index) return *)
      | Some entry =>
          let filter' : js (option Filter) :=
            match filter with
            | Some f => Ret (Some f)
            | None =>
                match activeView this with
                | None => Throw TypeError            (* this.activeView.predicate on null *)
                | Some view =>
                    match sel_active sel with
                    | None => Throw TypeError
                    | Some active => apply_predicate (view_predicate view) (predicate active)
                    end
                end
            end in
          match filter' with
          | Throw e => (Throw e, [])
          | Ret f => (Ret tt, [UpdateClient (client_id client) (update_query entry f)])
          end
      end
  end.

(** The calls [this.updateClient(client, filter)] of line 89, one after the
    other; the combined promise is rejected when one of them is. *)
Fixpoint update_all (sel : Selection) (this : Indexer)
    (todo : list Client) (filter : option Filter) : js unit * list Effect :=
  match todo with
  | [] => (Ret tt, [])
  | client :: todo' =>
      let '(r1, e1) := updateClient sel this client filter in
      let '(r2, e2) := update_all sel this todo' filter in
      (_ ← r1; r2, e1 ++ e2)
  end.

(** [update()], lines 85-91; asynchronous as well, with the same reading
    of [Ret tt].  The clients visited are the members the stored set had
    when [index] stored it: a set that has changed since is outside what
    this definition describes. *)
Definition update (sel : Selection) (this : Indexer) : js unit * list Effect :=
  match activeView this with
  | None => (Throw TypeError, [])                    (* activeView.predicate on null *)
  | Some view =>
      match sel_active sel with
      | None => (Throw TypeError, [])
      | Some active =>
          match apply_predicate (view_predicate view) (predicate active) with
          | Throw e => (Throw e, [])
          | Ret filter =>
              match clients this with
              | None => (Throw TypeError, [])
              | Some cs => update_all sel this (members cs) filter
              end
          end
      end
  end.

End IndexerMethods.

(* ===================================================================== *)
(** * The value of a bin expression *)
(* ===================================================================== *)

(** Modelled from the spec: the numbers of the database, which evaluates
    the generated SQL outside the source file.  [eval] below gives a bin
    expression the value section 4.2 of the specification states for it,
    [floor(a * (f(v) - lo))], computed without rounding on the rationals
    extended with the two infinities and NaN.  The numbers [a] and [lo]
    printed into the text are the doubles the source computed. *)

Module X.

Inductive xnum :=
| XNaN
| XInf (negative : bool)
| XFin (q : Q).

(** The value of the finite double with sign [s], mantissa [m] and
    exponent [e]. *)
Definition value_of (s : bool) (m : positive) (e : Z) : Q :=
  inject_Z (cond_Zopp s (Zpos m)) * 2 ^ e.

(** The value of a double. *)
Definition of_number (x : number) : xnum :=
  match x with
  | S754_nan => XNaN
  | S754_infinity s => XInf s
  | S754_zero _ => XFin 0
  | S754_finite s m e => XFin (value_of s m e)
  end.

Definition xsub (x y : xnum) : xnum :=
  match x, y with
  | XNaN, _ | _, XNaN => XNaN
  | XInf s, XInf t => if Bool.eqb s t then XNaN else XInf s
  | XInf s, XFin _ => XInf s
  | XFin _, XInf t => XInf (negb t)
  | XFin p, XFin q => XFin (p - q)
  end.

Definition xadd (x y : xnum) : xnum :=
  match x, y with
  | XNaN, _ | _, XNaN => XNaN
  | XInf s, XInf t => if Bool.eqb s t then XInf s else XNaN
  | XInf s, XFin _ => XInf s
  | XFin _, XInf t => XInf t
  | XFin p, XFin q => XFin (p + q)
  end.

(** An infinity times a finite number, by the sign of the latter. *)
Definition scale_inf (s : bool) (q : Q) : xnum :=
  match (q ?= 0)%Q with
  | Eq => XNaN
  | Lt => XInf (negb s)
  | Gt => XInf s
  end.

Definition xmul (x y : xnum) : xnum :=
  match x, y with
  | XNaN, _ | _, XNaN => XNaN
  | XInf s, XInf t => XInf (xorb s t)
  | XInf s, XFin q => scale_inf s q
  | XFin p, XInf t => scale_inf t p
  | XFin p, XFin q => XFin (p * q)
  end.

Definition xabs (x : xnum) : xnum :=
  match x with
  | XNaN => XNaN
  | XInf _ => XInf false
  | XFin q => XFin (Qabs q)
  end.

Definition xsign (x : xnum) : xnum :=
  match x with
  | XNaN => XNaN
  | XInf s => XFin (if s then -1 else 1)
  | XFin q => XFin (match (q ?= 0)%Q with Eq => 0 | Lt => -1 | Gt => 1 end)
  end.

Definition xfloor (x : xnum) : xnum :=
  match x with
  | XFin q => XFin (inject_Z (Qfloor q))
  | _ => x
  end.

(** The order of the extended rationals; NaN is not comparable. *)
Definition xle (x y : xnum) : Prop :=
  match x, y with
  | XNaN, _ | _, XNaN => False
  | XInf true, _ => True
  | _, XInf false => True
  | XFin p, XFin q => (p <= q)%Q
  | _, _ => False
  end.

End X.
Import X.

(** The database's logarithm and square root, taken as given. *)
Class SqlEngine := {
  LN : xnum -> xnum;
  SQRT : xnum -> xnum
}.

Section Eval.
Context `{SqlEngine}.

(** Modelled from the spec: the database's evaluation of the generated
    text, which is not part of the source file.  [env c] is the value, in
    the row at hand, of what [c] names.  A number printed into the text is
    its own value; a Date printed into the text is not a number. *)
Fixpoint eval (env : Value -> xnum) (e : Sql) : xnum :=
  match e with
  | SRef (VNum x) => of_number x
  | SRef (VDate _) => XNaN
  | SRef c => env c
  | SLit x => of_number x
  | SCast e1 => eval env e1
  | SLn e1 => LN (eval env e1)
  | SSqrt e1 => SQRT (eval env e1)
  | SSign e1 => xsign (eval env e1)
  | SAbs e1 => xabs (eval env e1)
  | SOnePlus e1 => xadd (XFin 1) (eval env e1)
  | SEpochMs e1 => eval env e1
  | SMul e1 e2 => xmul (eval env e1) (eval env e2)
  | SMinus e1 e2 => xsub (eval env e1) (eval env e2)
  | SFloor e1 => xfloor (eval env e1)
  end.

End Eval.

(* ===================================================================== *)
(** * Subquery pushdown: subqueryPushdown *)
(* ===================================================================== *)

(** [subqueryPushdown] walks the subqueries of a query and remembers the
    objects it has seen in a [Set], so the walk is over a graph of objects
    that may be shared or even reach themselves.  The objects live in a
    store keyed by their identity; an identity without an object stands for
    [undefined]. *)
Module Pushdown.

(** A query object, through the three members the walk reads. *)
Record QueryObject := {
  select_method : bool;        (* q.select is a method *)
  from_length : nat;           (* q.from().length *)
  subquery_ids : list nat      (* q.subqueries *)
}.

(** The state of a walk: the set [memo], and the objects on which
    [q.select(cols)] has been called, in the order of the calls. *)
Record Walk := {
  memo : gset nat;
  selected : list nat
}.

Definition start : Walk := {| memo := ∅; selected := [] |}.

(** [qs.forEach(visit)]; the first exception ends the loop.  [None] is a
    walk that ran out of fuel. *)
Fixpoint forEach (visit : nat -> Walk -> option (js Walk)) (qs : list nat) (w : Walk)
    : option (js Walk) :=
  match qs with
  | [] => Some (Ret w)
  | q :: qs' =>
      match visit q w with
      | Some (Ret w') => forEach visit qs' w'
      | r => r
      end
  end.

(** The closure [pushdown] of lines 256-263, with fuel for the depth of
    the recursion. *)
Fixpoint pushdown (fuel : nat) (store : gmap nat QueryObject) (q : nat) (w : Walk)
    : option (js Walk) :=
  match fuel with
  | O => None
  | S fuel' =>
      if decide (q ∈ memo w) then Some (Ret w)
      else
        match store !! q with
        | None => Some (Throw TypeError)         (* undefined.select *)
        | Some o =>
            let w1 :=
              {| memo := {[q]} ∪ memo w;
                 selected := if select_method o && (0 <? from_length o)%nat
                             then selected w ++ [q] else selected w |} in
            forEach (pushdown fuel' store) (subquery_ids o) w1
        end
  end.

(** [subqueryPushdown(query, cols)], lines 254-265.  The columns are the
    same in every call of [select], so the walk does not carry them. *)
Definition subqueryPushdown (store : gmap nat QueryObject) (query : nat)
    : option (js Walk) :=
  pushdown (S (size store)) store query start.

End Pushdown.

(* ===================================================================== *)
(** * Table names *)
(* ===================================================================== *)

Section TableNames.
Context `{Collaborators}.

(** The name of lines 76-77 of the table made for a generation query. *)
Definition tile_table (sql : string) : string :=
  "tile_index_" +:+ to_hex (to_uint32 (fnv_hash sql)).

(** The entry of line 78 for a client whose analysis gave [index]. *)
Definition tile_entry (sel : Selection) (src : nat) (view : ActiveView)
    (client : Client) (index : IndexColumns) (count : list (string * string))
    : IndexEntry :=
  {| table := tile_table (generation_sql sel src client (view_columns view) count);
     index_columns := index |}.

End TableNames.

(* ===================================================================== *)
(** * Predicates used in the statements *)
(* ===================================================================== *)

(** A later branch of a set operation agrees with the first branch's result
    [base] when it resolves to no table at all, or to the table [base] is. *)
Definition agrees_with (base : BaseTable) (q : Query) : Prop :=
  getBaseTable q = Ret BUndefined ∨
  ∃ t, base = BTable t ∧ getBaseTable q = Ret (BTable t).

(** A later branch conflicts with [base] when it resolves to something (a
    table or NaN) that is not strictly equal to [base]. *)
Definition conflicts_with (base : BaseTable) (q : Query) : Prop :=
  ∃ r, getBaseTable q = Ret r ∧ r ≠ BUndefined ∧ strict_eq r base = false.

(** The aggregate kinds of section 4.1 of the specification, recognised
    whatever the case of the function name, and the expression each one is
    re-aggregated with: COUNT and SUM by a SUM, AVG by the ratio of the
    count-weighted SUM to the SUM of the counts, MIN and MAX by themselves. *)
Inductive AggregateKind := KCount | KSum | KAvg | KMax | KMin.

#[global] Instance AggregateKind_eq_dec : EqDecision AggregateKind.
Proof. solve_decision. Defined.

Definition aggregate_kind (name : string) : option AggregateKind :=
  let up := toUpperCase name in
  if String.eqb up "COUNT" then Some KCount
  else if String.eqb up "SUM" then Some KSum
  else if String.eqb up "AVG" then Some KAvg
  else if String.eqb up "MAX" then Some KMax
  else if String.eqb up "MIN" then Some KMin
  else None.

Definition reaggregation (k : AggregateKind) (as_ : string) : string :=
  match k with
  | KCount | KSum => sum_text as_
  | KAvg => avg_text as_ "_count_"
  | KMax => max_text as_
  | KMin => min_text as_
  end.

(** The kind of a selected column; [None] for a column that is not an
    aggregate call and for an aggregate function outside the five. *)
Definition item_kind (it : SelectItem) : option AggregateKind :=
  si_aggregate it ≫= aggregate_kind.

Definition aggregate_entry (it : SelectItem) : option (string * string) :=
  k ← item_kind it; Some (si_as it, reaggregation k (si_as it)).

(** A selected column that is neither a supported aggregate nor named by
    the grouping set. *)
Definition unfit (g : gset string) (it : SelectItem) : Prop :=
  item_kind it = None ∧ si_as it ∉ g.

(** The scale types with a case in the switch of [binInterval]. *)
Definition supported_types : list string :=
  ["linear"; "log"; "symlog"; "sqrt"; "utc"; "time"].

(** The scale types whose forward transform is the identity. *)
Definition identity_types : list string := ["linear"; "utc"; "time"].

(** The number [x] as an input of the bin function of a scale: the number
    itself, and on a temporal scale the Date with that time value. *)
Definition numeric_input (type : string) (x : number) : Value :=
  if String.eqb type "utc" || String.eqb type "time" then VDate x else VNum x.

(** The database's [LN] is monotone on the positive rationals and not
    negative from 1 on, and its [SQRT] is monotone on the non-negative
    rationals, wherever their results are finite. *)
Definition monotone_on (F : xnum → xnum) (dom : Q → Prop) : Prop :=
  ∀ p q r s, dom p → (p <= q)%Q → F (XFin p) = XFin r → F (XFin q) = XFin s →
             (r <= s)%Q.

Definition monotone_engine `{SqlEngine} : Prop :=
  monotone_on LN (λ p, 0 < p)%Q ∧
  monotone_on SQRT (λ p, 0 <= p)%Q ∧
  (∀ p r, (1 <= p)%Q → LN (XFin p) = XFin r → (0 <= r)%Q).

(** The numbers on which the forward transform of a scale type is taken:
    the positive ones for [log], the non-negative ones for [sqrt], all of
    them otherwise. *)
Definition transform_domain (type : string) (p : Q) : Prop :=
  if String.eqb type "log" then (0 < p)%Q
  else if String.eqb type "sqrt" then (0 <= p)%Q
  else True.

(** The states an indexer can be in: the constructor resets it, and
    [index] is the only method that assigns its fields. *)
Inductive reachable `{JSEngine} `{Collaborators} : Indexer → Prop :=
| reachable_reset : reachable reset
| reachable_index sel this cs active :
    reachable this → reachable (final (index sel this cs active)).

(** The statement that creates the table of an index entry was sent to the
    executor, and the error was logged if the executor rejected it. *)
Definition submitted `{Collaborators} (eff : list Effect) (entry : IndexEntry) : Prop :=
  ∃ sql,
    Exec (create_statement (table entry) sql) ∈ eff ∧
    (exec_fails (create_statement (table entry) sql) = true →
     ConsoleError (create_statement (table entry) sql) ∈ eff).

(** The same collaborators with another executor. *)
Definition with_executor (C : Collaborators) (rejects : string → bool) : Collaborators :=
  {| fnv_hash := @fnv_hash C;
     skipClient := @skipClient C;
     generation_sql := @generation_sql C;
     exec_fails := rejects |}.

(** [index] returns [true] at line 48 without doing anything: the client
    set is the one last seen, indexing is enabled, and the clause has the
    source of the resolved active view. *)
Definition already_resolved (this : Indexer) (cs : ClientSet) (a : Clause) : Prop :=
  set_id <$> clients this = Some (set_id cs) ∧
  enabled this = true ∧
  ∃ src, source a = Some src ∧ view_source <$> activeView this = Some (Some src).

#[global] Instance already_resolved_dec this cs a : Decision (already_resolved this cs a).
Proof.
  unfold already_resolved.
  destruct (source a) as [src|].
  - destruct (decide (view_source <$> activeView this = Some (Some src))) as [Hv|Hv].
    + destruct (decide (set_id <$> clients this = Some (set_id cs))) as [Hc|Hc];
        [|right; tauto].
      destruct (decide (enabled this = true)) as [He|He]; [|right; tauto].
      left. eauto.
    + right. intros (_ & _ & src' & [= <-] & Hv'). tauto.
  - right. intros (_ & _ & src' & [=] & _).
Defined.

(* ===================================================================== *)
(** * Example inputs *)
(* ===================================================================== *)

Module Examples.

(** [SELECT ... FROM t] *)
Definition from_table (t : string) (select : list SelectItem)
    (groupby : list (option string)) : Query :=
  SelectQuery select [{| fe_as := t; fe_table := Some t |}] groupby [].

(** A select query without a FROM clause. *)
Definition no_from : Query := SelectQuery [] [] [] [].

Definition sales : Query := from_table "sales" [] [].
Definition returns : Query := from_table "returns" [] [].

Definition column (name : string) : SelectItem :=
  {| si_as := name; si_aggregate := None |}.
Definition aggregate (fn name : string) : SelectItem :=
  {| si_as := name; si_aggregate := Some fn |}.

Definition client_of (id : nat) (q : Query) : Client :=
  {| client_id := id; client_query := q; filterIndexable := true |}.

(** [SELECT category, count(_) AS n, Sum(amount) AS total, avg(price) AS
    mean, MIN(price) AS low, max(price) AS high FROM sales GROUP BY
    category] *)
Definition five_aggregates : Client :=
  client_of 1 (from_table "sales"
    [column "category"; aggregate "count" "n"; aggregate "Sum" "total";
     aggregate "avg" "mean"; aggregate "MIN" "low"; aggregate "max" "high"]
    [Some "category"]).

Definition five_shape : Shape :=
  {| aggr := [("n", sum_text "n"); ("total", sum_text "total");
              ("mean", avg_text "mean" "_count_");
              ("low", min_text "low"); ("high", max_text "high")];
     dims := ["category"];
     count := [("_count_", count_star)];
     from := BTable "sales" |}.

(** [SELECT count(_) AS n FROM sales], without a GROUP BY clause. *)
Definition global_count : Client :=
  client_of 2 (from_table "sales" [aggregate "count" "n"] []).

(** [(SELECT ... FROM sales) UNION (SELECT ... FROM sales)]. *)
Definition union_client : Client :=
  client_of 3 (SetOperation [sales; sales]).

(** [SELECT category, amount FROM sales GROUP BY category] *)
Definition ungrouped_column : Client :=
  client_of 4 (from_table "sales" [column "category"; column "amount"]
                          [Some "category"]).

(** A client that is not filter-indexable. *)
Definition not_indexable : Client :=
  {| client_id := 6;
     client_query := from_table "sales" [column "category"] [Some "category"];
     filterIndexable := false |}.

(** [SELECT median(x) AS x FROM sales GROUP BY x] *)
Definition median_client : Client :=
  client_of 5 (from_table "sales" [aggregate "median" "x"] [Some "x"]).

(** An engine for the examples, all on linear scales, which do not call
    the logarithms. *)
Definition engine : JSEngine :=
  {| Math_log := λ x, x; Math_log1p := λ x, x |}.

(** Collaborators for the examples: an executor that rejects every
    statement, and a cross-filter rule that skips client 7. *)
Definition rejecting : Collaborators :=
  {| fnv_hash := λ s, Z.of_nat (String.length s);
     skipClient := λ c _, Nat.eqb (client_id c) 7;
     generation_sql := λ _ _ c _ _, "SELECT ... /* client " +:+ pretty (client_id c) +:+ " */";
     exec_fails := λ _, true |}.

(** A database for the examples, all on linear scales, which do not call
    [LN] and [SQRT]. *)
Definition database : SqlEngine :=
  {| LN := λ x, x; SQRT := λ x, x |}.

Definition linear_scale (d0 d1 r0 r1 : Z) : Scale :=
  {| scale_type := "linear";
     domain := (of_Z d0, of_Z d1);
     range := (of_Z r0, of_Z r1) |}.

(** An interval clause over the column [date], emitted by source [src]. *)
Definition interval_clause (src : nat) (scale : Scale) : Clause :=
  {| source := Some src;
     schema := Some {| schema_type := "interval"; scales := Some [scale] |};
     predicate := Some {|
       p_columns := Some ["date"];
       p_expr := Some (VCol "date");
       p_value := Some [ {| it_self := VNum (of_Z 20); it_expr := None; it_value := None |};
                         {| it_self := VNum (of_Z 40); it_expr := None; it_value := None |} ] |} |}.

(** The linear scale of the specification's scenario: domain [[0, 100]],
    range [[0, 10]], and its factor [a]. *)
Definition decile_scale : Scale := linear_scale 0 100 0 10.
Definition decile_factor : number :=
  bin_a (domain decile_scale) (range decile_scale) (λ x, x).

(** A scale whose domain is the single point 5, and its factor [a]. *)
Definition point_domain_scale : Scale := linear_scale 5 5 0 10.
Definition point_domain_factor : number :=
  bin_a (domain point_domain_scale) (range point_domain_scale) (λ x, x).

Definition brush : Clause := interval_clause 1 decile_scale.

Definition pow_scale : Scale :=
  {| scale_type := "pow"; domain := (of_Z 0, of_Z 100); range := (of_Z 0, of_Z 10) |}.

(** A clause of the same source as [brush], and one of another source,
    both with a scale of an unsupported type. *)
Definition pow_brush : Clause := interval_clause 1 pow_scale.
Definition other_pow_brush : Clause := interval_clause 2 pow_scale.

Definition selection : Selection := {| sel_active := Some brush; sel_cross := true |}.

(** [SELECT category, sum(amount) AS total FROM sales GROUP BY category] *)
Definition totals (id : nat) : Client :=
  client_of id (from_table "sales" [column "category"; aggregate "sum" "total"]
                           [Some "category"]).

Definition one_client : ClientSet := {| set_id := 100; members := [totals 1] |}.
Definition two_clients : ClientSet := {| set_id := 101; members := [totals 1; totals 7] |}.

(** The first call of [index] on a new indexer, with one client and with
    two, and the indexers it leaves. *)
Definition first_run : Run bool :=
  @index engine rejecting selection reset one_client (Some brush).
Definition resolved : Indexer := final first_run.

Definition first_run_of_two : Run bool :=
  @index engine rejecting selection reset two_clients (Some brush).

(** A second call, with a clause of another source whose scale type is
    not supported. *)
Definition failed_run : Run bool :=
  @index engine rejecting selection (final first_run_of_two) two_clients
         (Some other_pow_brush).

(** The statement [first_run] sends to the executor. *)
Definition first_statement : string :=
  create_statement "tile_index_19" "SELECT ... /* client 1 */".

End Examples.

(* ===================================================================== *)
(** * Further predicates and examples *)
(* ===================================================================== *)

(** ** The aggregate mapping, in the specification's words *)

(** Section 4.1 of the specification: aggregate kinds are recognised
    case-insensitively; COUNT and SUM re-aggregate via SUM, AVG via
    SUM(value*count)/SUM(count) with a synthesised COUNT column named
    [_count_], MIN and MAX via themselves.  The definitions below are
    written from these words alone: they use neither the upper-casing nor
    the texts of the embedded code, and are what [getIndexColumns] is
    compared with. *)

(** A character is the given capital letter or its small form. *)
Definition spec_same_letter (capital c : ascii) : bool :=
  (nat_of_ascii c =? nat_of_ascii capital)%nat
  || (nat_of_ascii c =? nat_of_ascii capital + 32)%nat.

(** A name spells a keyword written in capitals, whatever its own case. *)
Fixpoint spec_spells (keyword name : string) : bool :=
  match keyword, name with
  | EmptyString, EmptyString => true
  | String k keyword', String c name' =>
      spec_same_letter k c && spec_spells keyword' name'
  | _, _ => false
  end.

Definition spec_kind (name : string) : option AggregateKind :=
  if spec_spells "COUNT" name then Some KCount
  else if spec_spells "SUM" name then Some KSum
  else if spec_spells "AVG" name then Some KAvg
  else if spec_spells "MAX" name then Some KMax
  else if spec_spells "MIN" name then Some KMin
  else None.

(** The quoted identifier of a column: the name between two double-quote
    characters (character 34), followed by [rest]. *)
Definition spec_quoted (name rest : string) : string :=
  String "034"%char (name +:+ String "034"%char rest).

(** The re-aggregation expression of a column of each kind, over the column
    [alias] of the index table; the results of SUM are cast to DOUBLE. *)
Definition spec_reaggregation (k : AggregateKind) (alias : string) : string :=
  match k with
  | KCount | KSum => "SUM(" +:+ spec_quoted alias ")::DOUBLE"
  | KAvg => "(SUM(" +:+ spec_quoted alias " * _count_) / SUM(_count_))::DOUBLE"
  | KMax => "MAX(" +:+ spec_quoted alias ")"
  | KMin => "MIN(" +:+ spec_quoted alias ")"
  end.

(** The synthesised count column: [_count_], a COUNT over all rows. *)
Definition spec_count_column : list (string * string) :=
  [("_count_", "COUNT" +:+ "(" +:+ "*" +:+ ")")].

(** The kind of a selected column, and its entry in the aggregate map. *)
Definition spec_item_kind (it : SelectItem) : option AggregateKind :=
  match si_aggregate it with
  | Some name => spec_kind name
  | None => None
  end.

Definition spec_aggregate_entry (it : SelectItem) : option (string * string) :=
  match spec_item_kind it with
  | Some k => Some (si_as it, spec_reaggregation k (si_as it))
  | None => None
  end.

(** [c] is one of the subqueries of the object [x]. *)
Definition subquery_of (store : gmap nat Pushdown.QueryObject) (x c : nat) : Prop :=
  ∃ o, store !! x = Some o ∧ c ∈ Pushdown.subquery_ids o.

(** The objects a walk from [q] can reach. *)
Inductive reaches (store : gmap nat Pushdown.QueryObject) (q : nat) : nat → Prop :=
| reaches_refl : reaches store q q
| reaches_step x c : reaches store q x → subquery_of store x c → reaches store q c.

(** The objects line 259 calls [select] on: select queries with a FROM
    entry. *)
Definition selectable (store : gmap nat Pushdown.QueryObject) (x : nat) : Prop :=
  ∃ o, store !! x = Some o ∧
       Pushdown.select_method o = true ∧ (0 < Pushdown.from_length o)%nat.

(** What one part of a walk, from [w] to [w'] over the roots [roots],
    has done. *)
Definition walked (store : gmap nat Pushdown.QueryObject) (roots : list nat)
    (w w' : Pushdown.Walk) : Prop :=
  Pushdown.memo w ⊆ Pushdown.memo w' ∧
  (∃ new, Pushdown.selected w' = Pushdown.selected w ++ new ∧ NoDup new ∧
          ∀ x, x ∈ new ↔ ((x ∈ Pushdown.memo w') ∧ (x ∉ Pushdown.memo w) ∧ selectable store x)) ∧
  (∀ r, r ∈ roots → r ∈ Pushdown.memo w') ∧
  (∀ x, x ∈ Pushdown.memo w' → x ∉ Pushdown.memo w →
        (∃ r, r ∈ roots ∧ reaches store r x) ∧
        is_Some (store !! x) ∧
        ∀ c, subquery_of store x c → c ∈ Pushdown.memo w').


(** Every set operation of the tree, and every select query that goes on to
    its subqueries, has a first subquery to start from. *)
Fixpoint has_branches (q : Query) : bool :=
  match q with
  | SelectQuery _ _ _ subq => forallb has_branches subq
  | SetOperation subq =>
      match subq with [] => false | _ :: _ => forallb has_branches subq end
  end.

(** What the walk finds when it only ever follows the first subquery. *)
Fixpoint leftmost (q : Query) : js BaseTable :=
  match q with
  | SelectQuery _ [] _ _ => Ret BUndefined
  | SelectQuery _ (f0 :: _) _ [] => Ret (table_of f0)
  | SelectQuery _ (_ :: _) _ (q0 :: _) => leftmost q0
  | SetOperation [] => Throw TypeError
  | SetOperation (q0 :: _) => leftmost q0
  end.

(** Every select query of the tree has a FROM entry, and those without
    subqueries have the table [t] as their first one. *)
Fixpoint over (t : string) (q : Query) : bool :=
  match q with
  | SelectQuery _ [] _ _ => false
  | SelectQuery _ (f0 :: _) _ [] => bool_decide (fe_table f0 = Some t)
  | SelectQuery _ (_ :: _) _ subq => forallb (over t) subq
  | SetOperation [] => false
  | SetOperation subq => forallb (over t) subq
  end.

Section Generation.
Context `{Collaborators}.

(** Line 60: the client is left out of the loop. *)
Definition skipped (sel : Selection) (a : Clause) (c : Client) : bool :=
  sel_cross sel && skipClient c a.

(** The text of the generation query of one client (lines 61-75), when its
    analysis and the reading of [index.count] succeed. *)
Definition tile_sql (sel : Selection) (src : nat) (view : ActiveView) (c : Client)
    : js string :=
  index ← getIndexColumns c;
  count ← count_of index;
  Ret (generation_sql sel src c (view_columns view) count).

(** What one passage of the loop of lines 59-80 does to the outside world. *)
Definition statements_of (sel : Selection) (src : nat) (a : Clause)
    (view : ActiveView) (c : Client) : list Effect :=
  if skipped sel a c then []
  else match tile_sql sel src view c with
       | Ret sql => createIndex (tile_table sql) sql
       | Throw _ => []
       end.

End Generation.

(** The call of [mc.updateClient] for a client, if the index map has an
    entry for it. *)
Definition update_call (m : gmap nat IndexEntry) (filter : option Filter)
    (c : Client) : list Effect :=
  match m !! client_id c with
  | Some entry => [UpdateClient (client_id c) (update_query entry filter)]
  | None => []
  end.

(** The columns a filter constrains; a clause's own predicate constrains
    the columns it lists. *)
Fixpoint filter_columns (f : Filter) : list string :=
  match f with
  | FEmpty => []
  | FIsBetween column _ => [column]
  | FAnd conjuncts => flat_map filter_columns conjuncts
  | FPredicate p => default [] (p_columns p)
  end.

(** The names [active0], [active1], ... of line 127 and line 130. *)
Definition active_names (n : nat) : list string :=
  (λ i, "active" +:+ pretty i) <$> seq 0 n.

(** Reading a lowercase hexadecimal numeral back; [None] on the empty
    string and on any other character. *)
Definition hex_value (c : ascii) : option Z :=
  let n := Z.of_nat (nat_of_ascii c) in
  if (48 <=? n)%Z && (n <=? 57)%Z then Some (n - 48)%Z
  else if (97 <=? n)%Z && (n <=? 102)%Z then Some (n - 87)%Z
  else None.

Fixpoint from_hex_aux (s : string) (acc : Z) : option Z :=
  match s with
  | EmptyString => Some acc
  | String c s' =>
      match hex_value c with
      | Some d => from_hex_aux s' (16 * acc + d)%Z
      | None => None
      end
  end.

Definition from_hex (s : string) : option Z :=
  match s with
  | EmptyString => None
  | _ => from_hex_aux s 0
  end.

(** The states an indexer can be in when the client sets keep their
    members: every call of [index] with the set of identity [i] finds the
    members [contents i] in it. *)
Inductive reachable_with `{JSEngine} `{Collaborators} (contents : nat → list Client)
    : Indexer → Prop :=
| reachable_with_reset : reachable_with contents reset
| reachable_with_index sel this cs active :
    members cs = contents (set_id cs) →
    reachable_with contents this →
    reachable_with contents (final (index sel this cs active)).

Module Samples.

(** A select query (0) over two subqueries: a select query (1) and a set
    operation (2) that share a select query without FROM entry (3); the set
    operation also refers back to the outer query. *)
Definition shared_store : gmap nat Pushdown.QueryObject :=
  <[0%nat := {| Pushdown.select_method := true; Pushdown.from_length := 1;
                Pushdown.subquery_ids := [1; 2]%nat |}]>
  (<[1%nat := {| Pushdown.select_method := true; Pushdown.from_length := 1;
                 Pushdown.subquery_ids := [3]%nat |}]>
  (<[2%nat := {| Pushdown.select_method := false; Pushdown.from_length := 0;
                 Pushdown.subquery_ids := [3; 0]%nat |}]>
  (<[3%nat := {| Pushdown.select_method := true; Pushdown.from_length := 0;
                 Pushdown.subquery_ids := [] |}]> ∅))).

Definition shared_walk : Pushdown.Walk :=
  {| Pushdown.memo := {[0; 1; 2; 3]}%nat; Pushdown.selected := [0; 1]%nat |}.

(** The same store without the object 3. *)
Definition dangling_store : gmap nat Pushdown.QueryObject :=
  delete 3%nat shared_store.

(** A select query over a join whose first entry is a subquery, on top of a
    union of two select queries over the table [sales], one of them through
    a further level. *)
Definition nested_sales : Query :=
  SelectQuery [] [{| fe_as := "u"; fe_table := None |}] []
    [SetOperation
       [Examples.sales;
        SelectQuery [] [{| fe_as := "s"; fe_table := None |}] [] [Examples.sales]]].

(** A client set with a client whose query is a union without branches. *)
Definition with_empty_union : ClientSet :=
  {| set_id := 102;
     members := [Examples.totals 1; Examples.client_of 8 (SetOperation [])] |}.

(** The bin function, the view and the filter of [Examples.brush]. *)
Definition brush_bin : Value → Expr :=
  binFunction (domain Examples.decile_scale) (range Examples.decile_scale)
              (λ x, x) SRef.

Definition brush_view : ActiveView :=
  {| view_source := Some 1%nat;
     view_columns := [("active0", brush_bin (VCol "date"))];
     view_predicate := ByInterval brush_bin |}.

Definition brush_filter : Filter :=
  FIsBetween "active0" [brush_bin (VNum (of_Z 20)); brush_bin (VNum (of_Z 40))].

(** A clause of a two-dimensional brush over the columns [x] and [y]. *)
Definition brush2d : Clause :=
  {| source := Some 3%nat;
     schema := Some {| schema_type := "interval";
                       scales := Some [Examples.decile_scale; Examples.decile_scale] |};
     predicate := Some {|
       p_columns := Some ["x"; "y"];
       p_expr := None;
       p_value := Some
         [ {| it_self := VOther "x BETWEEN 20 AND 40" (Some ["x"]);
              it_expr := Some (VCol "x");
              it_value := Some [VNum (of_Z 20); VNum (of_Z 40)] |};
           {| it_self := VOther "y BETWEEN 0 AND 10" (Some ["y"]);
              it_expr := Some (VCol "y");
              it_value := Some [VNum (of_Z 0); VNum (of_Z 10)] |} ] |} |}.

Definition view2d : ActiveView :=
  {| view_source := Some 3%nat;
     view_columns := [("active0", brush_bin (VCol "x")); ("active1", brush_bin (VCol "y"))];
     view_predicate := ByIntervals [brush_bin; brush_bin] |}.

Definition filter2d : Filter :=
  FAnd [FIsBetween "active0" [brush_bin (VNum (of_Z 20)); brush_bin (VNum (of_Z 40))];
        FIsBetween "active1" [brush_bin (VNum (of_Z 0)); brush_bin (VNum (of_Z 10))]].

(** A grouped client query over a subquery that is a union of a union
    without branches and a select query. *)
Definition over_empty_union : Client :=
  {| client_id := 9;
     client_query :=
       SelectQuery [Examples.column "category"; Examples.aggregate "sum" "total"]
         [{| fe_as := "u"; fe_table := None |}] [Some "category"]
         [SetOperation [SetOperation []; Examples.sales]];
     filterIndexable := false |}.

End Samples.

(* ===================================================================== *)
(** * Base table resolution *)
(* ===================================================================== *)

Section BaseTableFacts.

Lemma getBaseTable_set_operation q0 rest :
  getBaseTable (SetOperation (q0 :: rest)) =
  base ← getBaseTable q0; merge_branches base rest.
Proof. reflexivity. Qed.

Lemma getBaseTable_select_subqueries sel f fs g q0 rest :
  getBaseTable (SelectQuery sel (f :: fs) g (q0 :: rest)) =
  getBaseTable (SetOperation (q0 :: rest)).
Proof. reflexivity. Qed.

Lemma strict_eq_table t : strict_eq (BTable t) (BTable t) = true.
Proof. simpl. apply String.eqb_refl. Qed.

Lemma merge_branches_agree base rest :
  Forall (agrees_with base) rest → merge_branches base rest = Ret base.
Proof.
  induction 1 as [|q rest Hq _ IH]; simpl; [reflexivity|].
  destruct Hq as [Hq | (t & -> & Hq)]; rewrite Hq; simpl.
  - exact IH.
  - rewrite String.eqb_refl. exact IH.
Qed.

Lemma merge_branches_conflict base pre q post :
  Forall (agrees_with base) pre → conflicts_with base q →
  merge_branches base (pre ++ q :: post) = Ret BNaN.
Proof.
  intros Hpre (r & Hq & Hdef & Hne).
  induction Hpre as [|p pre Hp _ IH]; simpl.
  - rewrite Hq. destruct r; simpl in *; try congruence.
    now rewrite Hne.
  - destruct Hp as [Hp | (t & -> & Hp)]; rewrite Hp; simpl.
    + exact IH.
    + rewrite String.eqb_refl. exact IH.
Qed.

End BaseTableFacts.

(** C2 (as amended): base table resolution.  A select query without a FROM
    entry finds no table; a select query without subqueries resolves to the
    table of its first FROM entry; a select query with subqueries resolves as
    the set operation over them does; a query with one branch has the
    identity of that branch; with several branches the result is that of the
    first branch when every later branch resolves to no table or to the same
    table, and the NaN sentinel as soon as a later branch resolves to
    something that is not strictly equal to it; NaN is distinct from the
    no-table result.  A set operation without any branch throws. *)
Theorem getBaseTable_resolution :
  (∀ sel g subq, getBaseTable (SelectQuery sel [] g subq) = Ret BUndefined) ∧
  (∀ sel f fs g, getBaseTable (SelectQuery sel (f :: fs) g []) = Ret (table_of f)) ∧
  (∀ sel f fs g q0 rest,
      getBaseTable (SelectQuery sel (f :: fs) g (q0 :: rest)) =
      getBaseTable (SetOperation (q0 :: rest))) ∧
  (∀ q, getBaseTable (SetOperation [q]) = getBaseTable q) ∧
  (∀ q0 rest base,
      getBaseTable q0 = Ret base → Forall (agrees_with base) rest →
      getBaseTable (SetOperation (q0 :: rest)) = Ret base) ∧
  (∀ q0 pre q post base,
      getBaseTable q0 = Ret base → Forall (agrees_with base) pre →
      conflicts_with base q →
      getBaseTable (SetOperation (q0 :: pre ++ q :: post)) = Ret BNaN) ∧
  BNaN ≠ BUndefined ∧
  getBaseTable (SetOperation []) = Throw TypeError.
Proof.
  split_and!.
  - reflexivity.
  - reflexivity.
  - intros. apply getBaseTable_select_subqueries.
  - intros q. rewrite getBaseTable_set_operation.
    destruct (getBaseTable q); reflexivity.
  - intros q0 rest base H0 Hrest.
    rewrite getBaseTable_set_operation, H0. simpl.
    now apply merge_branches_agree.
  - intros q0 pre q post base H0 Hpre Hq.
    rewrite getBaseTable_set_operation, H0. simpl.
    now apply merge_branches_conflict.
  - discriminate.
  - reflexivity.
Qed.

(** The amended statement at work: a union of three branches, the middle
    one without a table, and a union over two different tables. *)
Lemma getBaseTable_resolution_witness :
  getBaseTable (SetOperation [Examples.sales; Examples.no_from; Examples.sales])
    = Ret (BTable "sales") ∧
  getBaseTable (SetOperation [Examples.sales; Examples.returns]) = Ret BNaN.
Proof.
  destruct getBaseTable_resolution as (_ & _ & _ & _ & Hagree & Hconflict & _).
  split.
  - apply Hagree; [reflexivity|].
    constructor; [left; reflexivity|].
    constructor; [|constructor].
    right. exists "sales". split; reflexivity.
  - apply (Hconflict Examples.sales [] Examples.returns [] (BTable "sales"));
      [reflexivity | constructor |].
    exists (BTable "returns"). split_and!; [reflexivity | discriminate | reflexivity].
Defined.

(** C2 as stated fails: the branches of [sales UNION (a query without
    FROM)] do not resolve to one common table, yet the result is the table
    [sales] and not the sentinel; with the branches swapped the result is the
    sentinel. *)
Lemma getBaseTable_disagreeing_branches :
  getBaseTable Examples.sales = Ret (BTable "sales") ∧
  getBaseTable Examples.no_from = Ret BUndefined ∧
  getBaseTable (SetOperation [Examples.sales; Examples.no_from]) = Ret (BTable "sales") ∧
  getBaseTable (SetOperation [Examples.sales; Examples.no_from]) ≠ Ret BNaN ∧
  getBaseTable (SetOperation [Examples.no_from; Examples.sales]) = Ret BNaN.
Proof. split_and!; try reflexivity. discriminate. Qed.

(* ===================================================================== *)
(** * Query shape analysis *)
(* ===================================================================== *)

Section QueryShape.

Lemma unfit_dec g it : Decision (unfit g it).
Proof. unfold unfit. apply _. Defined.

(** One pass of the switch: the case taken is the one of [item_kind]. *)
Lemma select_loop_cons g it rest aggr dims count :
  select_loop g (it :: rest) aggr dims count =
  match item_kind it with
  | Some KAvg =>
      select_loop g rest (aggr ++ [(si_as it, reaggregation KAvg (si_as it))]) dims
                  (Some "_count_")
  | Some k =>
      select_loop g rest (aggr ++ [(si_as it, reaggregation k (si_as it))]) dims count
  | None =>
      if decide (si_as it ∈ g) then select_loop g rest aggr (dims ++ [si_as it]) count
      else None
  end.
Proof.
  destruct it as [as_ [name|]]; simpl; [|reflexivity].
  unfold item_kind, aggregate_kind; simpl.
  destruct (String.eqb (toUpperCase name) "COUNT"); [reflexivity|].
  destruct (String.eqb (toUpperCase name) "SUM"); [reflexivity|].
  destruct (String.eqb (toUpperCase name) "AVG"); [reflexivity|].
  destruct (String.eqb (toUpperCase name) "MAX"); [reflexivity|].
  destruct (String.eqb (toUpperCase name) "MIN"); reflexivity.
Qed.

Lemma select_loop_none g items : ∀ aggr dims count,
  select_loop g items aggr dims count = None ↔ Exists (unfit g) items.
Proof.
  induction items as [|it rest IH]; intros aggr dims count.
  - simpl. split; [discriminate | intros HE; inversion HE].
  - rewrite select_loop_cons, Exists_cons. unfold unfit at 1.
    destruct (item_kind it) as [k|] eqn:Hk.
    + destruct k; rewrite IH; intuition congruence.
    + destruct (decide (si_as it ∈ g)) as [Hin|Hout].
      * rewrite IH. intuition.
      * intuition.
Qed.

Lemma select_loop_some g items : ∀ aggr dims count aggr' dims' count',
  select_loop g items aggr dims count = Some (aggr', dims', count') →
  aggr' = aggr ++ omap aggregate_entry items ∧
  dims' = dims ++ map si_as (filter (λ it, item_kind it = None) items) ∧
  count' = if decide (Exists (λ it, item_kind it = Some KAvg) items)
           then Some "_count_" else count.
Proof.
  induction items as [|it rest IH]; intros aggr dims count aggr' dims' count'.
  - simpl. intros [= <- <- <-]. rewrite !app_nil_r.
    split_and!; reflexivity.
  - rewrite select_loop_cons. simpl. rewrite filter_cons.
    unfold aggregate_entry at 1.
    destruct (item_kind it) as [k|] eqn:Hk; simpl.
    + destruct k; intros Hloop; apply IH in Hloop as (-> & -> & ->);
        rewrite <- !app_assoc; simpl;
        (split_and!; [reflexivity | reflexivity |]);
        repeat case_decide; try reflexivity;
        rewrite Exists_cons in *; rewrite ?Hk in *; intuition congruence.
    + destruct (decide (si_as it ∈ g)); [|discriminate].
      intros Hloop; apply IH in Hloop as (-> & -> & ->).
      rewrite <- !app_assoc; simpl.
      split_and!; [reflexivity | reflexivity |].
      repeat case_decide; try reflexivity;
        rewrite Exists_cons in *; rewrite ?Hk in *; intuition congruence.
Qed.

Lemma length_aggregate_entries items :
  length (omap aggregate_entry items) =
  length (filter (λ it, is_Some (item_kind it)) items).
Proof.
  induction items as [|it rest IH]; [reflexivity|].
  simpl. rewrite filter_cons. unfold aggregate_entry at 1.
  destruct (item_kind it) as [k|]; simpl.
  - now f_equal.
  - exact IH.
Qed.

(** How [getIndexColumns] ends, by the three tests of line 195 and the
    result of the loop. *)
Lemma getIndexColumns_unfold client :
  getIndexColumns client =
  match getBaseTable (client_query client) with
  | Throw e => Throw e
  | Ret base =>
      if falsy base || negb (has_groupby (client_query client))
         || negb (filterIndexable client)
      then Ret ICEarlyExit
      else
        match client_query client with
        | SetOperation _ => Throw TypeError
        | SelectQuery select _ groupby _ =>
            match select_loop (grouping_set groupby) select [] [] None with
            | None => Ret ICNull
            | Some (aggr, dims, count) =>
                Ret (ICShape {| aggr := aggr; dims := dims;
                                count := match count with
                                         | Some c => [(c, count_star)]
                                         | None => []
                                         end;
                                from := base |})
            end
        end
  end.
Proof. unfold getIndexColumns. destruct (getBaseTable _); reflexivity. Qed.

End QueryShape.

Section SpecAggregates.

Lemma ascii_eqb_nat a b :
  Ascii.eqb a b = (nat_of_ascii a =? nat_of_ascii b)%nat.
Proof.
  destruct (Ascii.eqb_spec a b) as [->|Hne].
  - now rewrite Nat.eqb_refl.
  - symmetry. apply Nat.eqb_neq. intros Heq. apply Hne.
    rewrite <- (ascii_nat_embedding a), <- (ascii_nat_embedding b).
    now rewrite Heq.
Qed.

(** Upper-casing a character gives a capital letter exactly when the
    character is that letter or its small form. *)
Lemma upper_ascii_capital capital c :
  (65 <= nat_of_ascii capital <= 90)%nat →
  Ascii.eqb (upper_ascii c) capital = spec_same_letter capital c.
Proof.
  intros Hcap. rewrite ascii_eqb_nat. unfold upper_ascii, spec_same_letter.
  pose proof (nat_ascii_bounded c) as Hc.
  destruct ((97 <=? nat_of_ascii c)%nat && (nat_of_ascii c <=? 122)%nat) eqn:Hsmall.
  - apply andb_true_iff in Hsmall as [Hlo Hhi].
    apply Nat.leb_le in Hlo, Hhi.
    rewrite nat_ascii_embedding by lia.
    destruct (Nat.eqb_spec (nat_of_ascii c - 32) (nat_of_ascii capital)),
             (Nat.eqb_spec (nat_of_ascii c) (nat_of_ascii capital)),
             (Nat.eqb_spec (nat_of_ascii c) (nat_of_ascii capital + 32));
      simpl; try reflexivity; lia.
  - assert (Hout : (nat_of_ascii c < 97 ∨ 122 < nat_of_ascii c)%nat).
    { apply andb_false_iff in Hsmall as [Hlo|Hhi];
        [apply Nat.leb_gt in Hlo | apply Nat.leb_gt in Hhi]; lia. }
    destruct (Nat.eqb_spec (nat_of_ascii c) (nat_of_ascii capital)),
             (Nat.eqb_spec (nat_of_ascii c) (nat_of_ascii capital + 32));
      simpl; try reflexivity; lia.
Qed.

Lemma toUpperCase_spells keyword : ∀ name,
  Forall (λ k, 65 <= nat_of_ascii k <= 90)%nat (list_ascii_of_string keyword) →
  String.eqb (toUpperCase name) keyword = spec_spells keyword name.
Proof.
  induction keyword as [|k keyword IH]; intros [|c name] Hcap; simpl;
    try reflexivity.
  apply Forall_cons in Hcap as [Hk Hcap].
  rewrite upper_ascii_capital by exact Hk.
  destruct (spec_same_letter k c); simpl; [now apply IH|reflexivity].
Qed.

Lemma aggregate_kind_spec name : aggregate_kind name = spec_kind name.
Proof.
  unfold aggregate_kind, spec_kind.
  rewrite !toUpperCase_spells; [reflexivity|..];
    simpl; repeat constructor; simpl; lia.
Qed.

Lemma item_kind_spec it : item_kind it = spec_item_kind it.
Proof.
  unfold item_kind, spec_item_kind. destruct (si_aggregate it); simpl;
    [apply aggregate_kind_spec | reflexivity].
Qed.

Lemma reaggregation_spec k alias :
  reaggregation k alias = spec_reaggregation k alias.
Proof. destruct k; reflexivity. Qed.

Lemma aggregate_entry_spec it : aggregate_entry it = spec_aggregate_entry it.
Proof.
  unfold aggregate_entry, spec_aggregate_entry. rewrite item_kind_spec.
  destruct (spec_item_kind it); simpl; [|reflexivity].
  now rewrite reaggregation_spec.
Qed.

Lemma omap_aggregate_entry_spec (items : list SelectItem) :
  omap aggregate_entry items = omap spec_aggregate_entry items.
Proof.
  induction items as [|it items IH]; [reflexivity|]. csimpl.
  now rewrite aggregate_entry_spec, IH.
Qed.

Lemma length_spec_entries (items : list SelectItem) :
  length (omap spec_aggregate_entry items) =
  length (filter (λ it, is_Some (spec_item_kind it)) items).
Proof.
  induction items as [|it rest IH]; [reflexivity|].
  simpl. rewrite filter_cons. unfold spec_aggregate_entry at 1.
  destruct (spec_item_kind it) as [k|]; simpl.
  - now f_equal.
  - exact IH.
Qed.

Lemma Exists_item_kind_spec k (items : list SelectItem) :
  Exists (λ it, item_kind it = Some k) items ↔
  Exists (λ it, spec_item_kind it = Some k) items.
Proof.
  rewrite !Exists_exists.
  split; intros (it & Hin & Hk); exists it; (split; [exact Hin|]);
    [rewrite <- item_kind_spec | rewrite item_kind_spec]; exact Hk.
Qed.

End SpecAggregates.



(** The function name is matched whatever its case. *)
Example aggregate_kind_case :
  aggregate_kind "sum" = Some KSum ∧ aggregate_kind "Sum" = Some KSum ∧
  aggregate_kind "SUM" = Some KSum ∧ aggregate_kind "aVg" = Some KAvg ∧
  aggregate_kind "median" = None.
Proof. split_and!; reflexivity. Qed.

(** C7 (as amended): the analysis returns [null] exactly when the three
    tests of the early exit pass and some selected column is neither a
    supported aggregate nor named by the grouping set; it returns the early
    exit object [{ from: NaN }], which is not [null], exactly when no single
    base table is found, the query is not a select query with a [groupby]
    method, or the client is not filter-indexable. *)
Theorem getIndexColumns_failure client :
  (getIndexColumns client = Ret ICNull ↔
     ∃ select from_ groupby subq base,
       client_query client = SelectQuery select from_ groupby subq ∧
       getBaseTable (client_query client) = Ret base ∧
       falsy base = false ∧ filterIndexable client = true ∧
       Exists (unfit (grouping_set groupby)) select) ∧
  (getIndexColumns client = Ret ICEarlyExit ↔
     ∃ base, getBaseTable (client_query client) = Ret base ∧
       (falsy base = true ∨ has_groupby (client_query client) = false
        ∨ filterIndexable client = false)).
Proof.
  rewrite getIndexColumns_unfold.
  destruct (getBaseTable (client_query client)) as [base|e] eqn:Hbase.
  2:{ split; split; try discriminate; try (intros; reflexivity).
      - intros (? & ? & ? & ? & ? & _ & [=] & _).
      - intros (? & [=] & _). }
  destruct (falsy base) eqn:Hf; simpl.
  { split; split; try discriminate; try (intros; reflexivity).
    - intros (? & ? & ? & ? & b & _ & [= <-] & ? & _). congruence.
    - intros _. exists base. auto. }
  destruct (client_query client) as [select from_ groupby subq|subq] eqn:Hq; simpl.
  2:{ split; split; try discriminate; try (intros; reflexivity).
      - intros (? & ? & ? & ? & ? & [=] & _).
      - intros _. exists base. auto. }
  destruct (filterIndexable client) eqn:Hfi; simpl.
  2:{ split; split; try discriminate; try (intros; reflexivity).
      - intros (? & ? & ? & ? & ? & _ & _ & _ & [=] & _).
      - intros _. exists base. auto. }
  destruct (select_loop _ _ _ _ _) as [[[a d] c]|] eqn:Hloop.
  - assert (Hno : ¬ Exists (unfit (grouping_set groupby)) select).
    { intros HE. apply (select_loop_none _ _ [] [] None) in HE. congruence. }
    split; split; try discriminate; try (intros; reflexivity).
    + intros (s' & ? & g' & ? & ? & [= <- _ <- _] & _ & _ & _ & HE). tauto.
    + intros (b & [= <-] & [?|[?|?]]); congruence.
  - split; split; try discriminate; try (intros; reflexivity).
    + intros _. exists select, from_, groupby, subq, base.
      apply select_loop_none in Hloop. split_and!; auto.
    + intros (b & [= <-] & [?|[?|?]]); congruence.
Qed.

(** C7 as stated fails: a query without a GROUP BY clause whose columns are
    all supported aggregates is analysed successfully; a set operation and a
    client that is not filter-indexable get the early exit object, which is
    not [null]. *)
Lemma getIndexColumns_without_groupby :
  getIndexColumns Examples.global_count =
    Ret (ICShape {| aggr := [("n", sum_text "n")]; dims := []; count := [];
                    from := BTable "sales" |}) ∧
  getIndexColumns Examples.global_count ≠ Ret ICNull ∧
  getIndexColumns Examples.union_client = Ret ICEarlyExit ∧
  getIndexColumns Examples.union_client ≠ Ret ICNull ∧
  getIndexColumns Examples.not_indexable = Ret ICEarlyExit.
Proof. split_and!; try (vm_compute; reflexivity); vm_compute; discriminate. Qed.

(** The case of the specification's example: one selected column that is
    neither grouped nor an aggregate gives [null]. *)
Example getIndexColumns_ungrouped_column :
  getIndexColumns Examples.ungrouped_column = Ret ICNull.
Proof. vm_compute. reflexivity. Qed.

(** C8: at [SELECT median(x) AS x FROM sales GROUP BY x] the analysis does
    not fail: the unsupported aggregate falls into the default case of the
    switch and, its alias being in the grouping set, is taken as a grouping
    dimension. *)
Theorem getIndexColumns_unsupported_aggregate_as_dimension :
  item_kind (Examples.aggregate "median" "x") = None ∧
  getIndexColumns Examples.median_client =
    Ret (ICShape {| aggr := []; dims := ["x"]; count := [];
                    from := BTable "sales" |}).
Proof. split; vm_compute; reflexivity. Qed.

(* ===================================================================== *)
(** * The indexer *)
(* ===================================================================== *)

Section IndexerFacts.
Context `{JSEngine} `{Collaborators}.

Lemma submitted_app eff more entry :
  submitted eff entry → submitted (eff ++ more) entry.
Proof.
  intros (sql & Hexec & Herr). exists sql. split.
  - apply elem_of_app. now left.
  - intros Hf. apply elem_of_app. left. now apply Herr.
Qed.

Lemma submitted_createIndex eff table0 sql index :
  submitted (eff ++ createIndex table0 sql)
            {| table := table0; index_columns := index |}.
Proof.
  exists sql. simpl. unfold createIndex.
  destruct (exec_fails (create_statement table0 sql)) eqn:Hf.
  - split; [|intros _]; apply elem_of_app; right; set_solver.
  - split; [|discriminate]. apply elem_of_app; right; set_solver.
Qed.

(** The loop of [index]: effects are only appended; every entry of the
    map has had its statement submitted; no entry is ever removed; when the
    loop ends normally every client that is not skipped has an entry. *)
Lemma index_loop_spec sel src a view todo : ∀ m eff r m' eff',
  index_loop sel src a view todo m eff = (r, m', eff') →
  (∃ more, eff' = eff ++ more) ∧
  ((∀ k e, m !! k = Some e → submitted eff e) →
   ∀ k e, m' !! k = Some e → submitted eff' e) ∧
  (∀ k, is_Some (m !! k) → is_Some (m' !! k)) ∧
  (r = Ret tt → ∀ c, c ∈ todo → sel_cross sel && skipClient c a = false →
   is_Some (m' !! client_id c)).
Proof.
  induction todo as [|c0 todo IH]; intros m eff r m' eff'; simpl.
  - intros [= <- <- <-]. split_and!; auto.
    + exists []. now rewrite app_nil_r.
    + intros _ c Hc. inversion Hc.
  - destruct (sel_cross sel && skipClient c0 a) eqn:Hskip.
    { intros Hloop. apply IH in Hloop as (Hmore & Hsub & Hkeep & Hall).
      split_and!; auto.
      intros Hr c Hc Hc'. apply elem_of_cons in Hc as [->|Hc]; [congruence|].
      now apply Hall. }
    destruct (getIndexColumns c0) as [index|e].
    2:{ intros [= <- <- <-]. split_and!; auto; try discriminate.
        exists []. now rewrite app_nil_r. }
    destruct (count_of index) as [count0|e].
    2:{ intros [= <- <- <-]. split_and!; auto; try discriminate.
        exists []. now rewrite app_nil_r. }
    intros Hloop. apply IH in Hloop as ((more & ->) & Hsub & Hkeep & Hall).
    split_and!.
    + eexists. now rewrite <- app_assoc.
    + intros Hm. apply Hsub. intros k e.
      destruct (decide (k = client_id c0)) as [->|Hne].
      * rewrite lookup_insert_eq. intros [= <-]. apply submitted_createIndex.
      * rewrite lookup_insert_ne by congruence. intros Hk.
        apply submitted_app. eauto.
    + intros k Hk. apply Hkeep.
      destruct (decide (k = client_id c0)) as [->|Hne].
      * rewrite lookup_insert_eq. eauto.
      * now rewrite lookup_insert_ne by congruence.
    + intros Hr c Hc Hc'. apply elem_of_cons in Hc as [->|Hc].
      * apply Hkeep. rewrite lookup_insert_eq. eauto.
      * now apply Hall.
Qed.

(** What the executor answers changes neither the completion of the loop
    nor the index map. *)
Lemma index_loop_executor rejects sel src a view todo : ∀ m eff eff0,
  fst (index_loop (H0 := with_executor H0 rejects) sel src a view todo m eff0) =
  fst (index_loop sel src a view todo m eff).
Proof.
  induction todo as [|c0 todo IH]; intros m eff eff0; simpl; [reflexivity|].
  destruct (sel_cross sel && skipClient c0 a); [apply IH|].
  destruct (getIndexColumns c0) as [index|e]; [|reflexivity].
  destruct (count_of index) as [count0|e]; [|reflexivity].
  apply IH.
Qed.

Lemma index_executor rejects sel this cs active :
  outcome (index (H0 := with_executor H0 rejects) sel this cs active) =
    outcome (index sel this cs active) ∧
  final (index (H0 := with_executor H0 rejects) sel this cs active) =
    final (index sel this cs active).
Proof.
  unfold index.
  destruct (if bool_decide _ then _ else _) as [this1|e]; simpl; [|auto].
  destruct (enabled this1); simpl; [|auto].
  destruct (effective_clause sel active) as [a|]; simpl; [|auto].
  destruct (source a) as [src|]; simpl; [|auto].
  destruct (bool_decide _); simpl; [auto|].
  destruct (getActiveView a) as [[view|]|]; simpl; auto.
  pose proof (index_loop_executor rejects sel src a view (members cs) ∅
                [ConsoleWarn "DATA TILE INDEX CONSTRUCTION"]
                [ConsoleWarn "DATA TILE INDEX CONSTRUCTION"]) as Heq.
  destruct (index_loop (H0 := with_executor H0 rejects) _ _ _ _ _ _ _) as [[r' m'] eff'].
  destruct (index_loop _ _ _ _ _ _ _) as [[r m] eff].
  simpl in *. injection Heq as -> ->. auto.
Qed.

(** An active view is only ever stored while indexing is enabled. *)
Lemma reachable_view_enabled this :
  reachable this → is_Some (activeView this) → enabled this = true.
Proof.
  induction 1 as [|sel this cs active Hreach IH].
  - intros [? [=]].
  - assert (Hold : enabled this = false → activeView this = None).
    { intros Hen. destruct (activeView this); [|reflexivity].
      rewrite IH in Hen by eauto. discriminate. }
    unfold index.
    destruct (bool_decide _); simpl.
    + destruct (enabled this) eqn:Hen; simpl;
        [|intros Hs; rewrite Hold in Hs by reflexivity; now destruct Hs].
      destruct (effective_clause sel active) as [a|]; simpl; [|auto].
      destruct (source a) as [src|]; simpl; [|auto].
      destruct (bool_decide _); simpl; [auto|].
      destruct (getActiveView a) as [[view|]|]; simpl; auto.
      destruct (index_loop _ _ _ _ _ _ _) as [[r m] eff]; simpl. auto.
    + destruct (mapM getIndexColumns (members cs)) as [cols|]; simpl; [|exact IH].
      destruct (forallb _ cols) eqn:Hen; simpl; [|intros [? [=]]].
      destruct (effective_clause sel active) as [a|]; simpl; [|auto].
      destruct (source a) as [src|]; simpl; [|auto].
      destruct (getActiveView a) as [[view|]|]; simpl; auto.
      destruct (index_loop _ _ _ _ _ _ _) as [[r m] eff]; simpl. auto.
Qed.

End IndexerFacts.

(** C5: on an indexer that has resolved an active view, a further call of
    [index] with the same client set and a clause whose source is the
    source of that view returns [true], leaves the four fields as they are
    (no analysis, no resolution) and has no effect (no statement is sent to
    the executor). *)
Theorem index_idempotent `{JSEngine} `{Collaborators}
    sel this cs active a src view :
  reachable this →
  set_id <$> clients this = Some (set_id cs) →
  effective_clause sel active = Some a →
  source a = Some src →
  activeView this = Some view →
  view_source view = Some src →
  index sel this cs active = {| outcome := Ret true; final := this; effects := [] |}.
Proof.
  intros Hreach Hcs Ha Hsrc Hview Hvsrc.
  assert (Hen : enabled this = true).
  { apply reachable_view_enabled; [exact Hreach | rewrite Hview; eauto]. }
  unfold index.
  rewrite bool_decide_eq_true_2 by exact Hcs. simpl.
  rewrite Hen, Ha, Hsrc. simpl.
  rewrite bool_decide_eq_true_2; [reflexivity|].
  rewrite Hview. simpl. now rewrite Hvsrc.
Qed.

Lemma index_idempotent_witness :
  (∃ view, activeView Examples.resolved = Some view ∧ view_source view = Some 1) ∧
  @index Examples.engine Examples.rejecting Examples.selection Examples.resolved
         Examples.one_client None
  = {| outcome := Ret true; final := Examples.resolved; effects := [] |}.
Proof.
  split.
  - eexists. split; vm_compute; reflexivity.
  - eapply (@index_idempotent Examples.engine Examples.rejecting
              Examples.selection Examples.resolved Examples.one_client None
              Examples.brush 1).
    + apply reachable_index, reachable_reset.
    + vm_compute. reflexivity.
    + reflexivity.
    + reflexivity.
    + vm_compute. reflexivity.
    + reflexivity.
Defined.

(** C1 (as amended): when [index] builds the indices and returns [true],
    it returns [true] and leaves the same indexer whatever the executor
    answers; every client of the set that the cross-filter rule does not
    skip has an entry in the index map, whether or not the executor rejected
    the statement that creates its table (a rejection is logged and nothing
    else), and a later [updateClient] for it with a filter hands its client
    the update query on the entry's table. *)
Theorem index_keeps_entry `{JSEngine} `{Collaborators} sel this cs active c :
  outcome (index sel this cs active) = Ret true →
  ConsoleWarn "DATA TILE INDEX CONSTRUCTION" ∈ effects (index sel this cs active) →
  c ∈ members cs →
  (∀ a, effective_clause sel active = Some a →
        sel_cross sel && skipClient c a = false) →
  (∀ rejects,
     outcome (index (H0 := with_executor H0 rejects) sel this cs active) = Ret true ∧
     final (index (H0 := with_executor H0 rejects) sel this cs active)
       = final (index sel this cs active)) ∧
  ∃ m entry,
    indices (final (index sel this cs active)) = Some m ∧
    m !! client_id c = Some entry ∧
    submitted (effects (index sel this cs active)) entry ∧
    ∀ sel' filter,
      updateClient sel' (final (index sel this cs active)) c (Some filter) =
      (Ret tt, [UpdateClient (client_id c) (update_query entry (Some filter))]).
Proof.
  intros Htrue Hwarn Hc Hskip. split.
  { intros rejects.
    destruct (index_executor rejects sel this cs active) as [-> ->]. auto. }
  revert Htrue Hwarn Hc Hskip.
  unfold index.
  destruct (if bool_decide _ then _ else _) as [this1|e]; simpl;
    [|intros _ Hin; inversion Hin].
  destruct (enabled this1); simpl; [|intros _ Hin; inversion Hin].
  destruct (effective_clause sel active) as [a|]; simpl;
    [|intros _ Hin; inversion Hin].
  destruct (source a) as [src|]; simpl; [|intros _ Hin; inversion Hin].
  destruct (bool_decide _); simpl; [intros _ Hin; inversion Hin|].
  destruct (getActiveView a) as [[view|]|]; simpl;
    try (intros _ Hin; inversion Hin; fail).
  destruct (index_loop _ _ _ _ _ _ _) as [[r m] eff] eqn:Hloop; simpl.
  intros Hr _ Hc Hskip.
  apply index_loop_spec in Hloop as (_ & Hsub & _ & Hall).
  assert (Hrt : r = Ret tt) by (destruct r as [[]|]; [reflexivity|discriminate]).
  destruct (Hall Hrt c Hc (Hskip a eq_refl)) as [entry Hentry].
  exists m, entry. split_and!; auto.
  - eapply Hsub; [|exact Hentry].
    intros k e Hk. rewrite lookup_empty in Hk. discriminate.
  - intros sel' filter. unfold updateClient. simpl. now rewrite Hentry.
Qed.

Lemma index_keeps_entry_witness :
  outcome Examples.first_run = Ret true ∧
  (∀ rejects,
     outcome (@index Examples.engine (with_executor Examples.rejecting rejects)
                     Examples.selection reset Examples.one_client
                     (Some Examples.brush)) = Ret true ∧
     final (@index Examples.engine (with_executor Examples.rejecting rejects)
                   Examples.selection reset Examples.one_client
                   (Some Examples.brush)) = Examples.resolved) ∧
  ∃ m entry,
    indices Examples.resolved = Some m ∧
    m !! 1 = Some entry ∧
    @submitted Examples.rejecting (effects Examples.first_run) entry ∧
    ∀ sel' filter,
      updateClient sel' Examples.resolved (Examples.totals 1) (Some filter) =
      (Ret tt, [UpdateClient 1 (update_query entry (Some filter))]).
Proof.
  split; [vm_compute; reflexivity|].
  apply (@index_keeps_entry Examples.engine Examples.rejecting Examples.selection
           reset Examples.one_client (Some Examples.brush) (Examples.totals 1)).
  - vm_compute. reflexivity.
  - apply list_elem_of_here.
  - apply list_elem_of_here.
  - intros a [= <-]. reflexivity.
Defined.

(** C1 as stated fails: the executor rejects the statement, the error is
    logged and [index] returns [true], but the client's entry is in the index
    map and [updateClient] is not a no-op: it hands the client a query on
    the table that was never created. *)
Lemma index_entry_recorded_despite_rejection :
  @exec_fails Examples.rejecting Examples.first_statement = true ∧
  outcome Examples.first_run = Ret true ∧
  effects Examples.first_run =
    [ConsoleWarn "DATA TILE INDEX CONSTRUCTION";
     Exec Examples.first_statement; ConsoleError Examples.first_statement] ∧
  (∃ entry, indices Examples.resolved ≫= (.!! 1) = Some entry ∧
            table entry = "tile_index_19") ∧
  (∃ q, updateClient Examples.selection Examples.resolved (Examples.totals 1) None
        = (Ret tt, [UpdateClient 1 q]) ∧ tq_table q = "tile_index_19") ∧
  updateClient Examples.selection Examples.resolved (Examples.totals 1) None
    ≠ (Ret tt, []).
Proof.
  split_and!.
  - reflexivity.
  - vm_compute. reflexivity.
  - vm_compute. reflexivity.
  - eexists. split; vm_compute; reflexivity.
  - eexists. split; vm_compute; reflexivity.
  - vm_compute. discriminate.
Qed.

Section UnsupportedScale.
Context `{JSEngine}.

Lemma scale_transform_unsupported type :
  type ∉ supported_types ↔ scale_transform type = None.
Proof.
  unfold scale_transform, supported_types.
  split.
  - intros Hnot.
    repeat match goal with
    | |- context [String.eqb type ?s] =>
        destruct (String.eqb_spec type s) as [->|_];
        [exfalso; apply Hnot; set_solver|]
    end.
    reflexivity.
  - intros Hnone Hin.
    repeat (apply elem_of_cons in Hin as [->|Hin]; [discriminate Hnone|]).
    inversion Hin.
Qed.

Lemma binInterval_unsupported sc :
  scale_type sc ∉ supported_types → binInterval sc = None.
Proof.
  intros Hnot. unfold binInterval.
  apply scale_transform_unsupported in Hnot. now rewrite Hnot.
Qed.

Lemma getActiveView_unsupported a sch scs sc :
  schema a = Some sch → schema_type sch = "interval" → scales sch = Some scs →
  sc ∈ scs → scale_type sc ∉ supported_types →
  getActiveView a = Ret None.
Proof.
  intros Hsch Htype Hscs Hin Hnot. unfold getActiveView.
  rewrite Hsch. destruct (predicate a) as [p|]; [|reflexivity].
  destruct (p_columns p) as [columns|]; [|reflexivity].
  rewrite Htype, Hscs. simpl.
  assert (Hex : existsb (λ b, negb (bool_decide (is_Some b))) (map binInterval scs) = true).
  { apply existsb_exists. exists (binInterval sc). split.
    - apply in_map, list_elem_of_In, Hin.
    - rewrite binInterval_unsupported by exact Hnot. reflexivity. }
  now rewrite Hex.
Qed.

End UnsupportedScale.

(** C6 (as amended): for an interval clause one of whose scales has an
    unsupported type, [binInterval] returns [null] on that scale,
    [getActiveView] returns [null], and [index], when the analysis of the
    client set completes, sends nothing to the executor and returns [false],
    except that it returns [true] at line 48, without resolving anything,
    when the clause has the source of the active view resolved before. *)
Theorem index_unsupported_scale `{JSEngine} `{Collaborators}
    sel this cs active a sch scs sc :
  effective_clause sel active = Some a →
  schema a = Some sch → schema_type sch = "interval" → scales sch = Some scs →
  sc ∈ scs → scale_type sc ∉ supported_types →
  (∃ cols, mapM getIndexColumns (members cs) = Ret cols) →
  binInterval sc = None ∧
  getActiveView a = Ret None ∧
  effects (index sel this cs active) = [] ∧
  outcome (index sel this cs active) = Ret (bool_decide (already_resolved this cs a)).
Proof.
  intros Ha Hsch Htype Hscs Hin Hnot [cols Hcols].
  pose proof (getActiveView_unsupported a sch scs sc Hsch Htype Hscs Hin Hnot) as Hview.
  split; [now apply binInterval_unsupported|]. split; [exact Hview|].
  unfold index. rewrite Hcols, Ha. simpl.
  case_bool_decide as Hset; simpl.
  - destruct (enabled this) eqn:Hen; simpl.
    2:{ split; [reflexivity|]. rewrite bool_decide_eq_false_2; [reflexivity|].
        intros (_ & He & _). congruence. }
    destruct (source a) as [src|] eqn:Hsrc; simpl.
    2:{ split; [reflexivity|]. rewrite bool_decide_eq_false_2; [reflexivity|].
        intros (_ & _ & src' & Hs' & _). congruence. }
    case_bool_decide as Hv; simpl.
    + split; [reflexivity|]. rewrite bool_decide_eq_true_2; [reflexivity|].
      split_and!; auto. exists src. auto.
    + rewrite Hview. simpl. split; [reflexivity|].
      rewrite bool_decide_eq_false_2; [reflexivity|].
      intros (_ & _ & src' & Hs' & Hv'). rewrite Hsrc in Hs'.
      injection Hs' as <-. congruence.
  - assert (Hno : bool_decide (already_resolved this cs a) = false).
    { apply bool_decide_eq_false_2. intros (Hs & _). congruence. }
    rewrite Hno.
    destruct (forallb _ cols); simpl; [|auto].
    destruct (source a) as [src|]; simpl; [|auto].
    rewrite Hview. simpl. auto.
Qed.

Lemma index_unsupported_scale_witness :
  binInterval (H := Examples.engine) Examples.pow_scale = None ∧
  getActiveView (H := Examples.engine) Examples.other_pow_brush = Ret None ∧
  effects (@index Examples.engine Examples.rejecting Examples.selection reset
                  Examples.one_client (Some Examples.other_pow_brush)) = [] ∧
  outcome (@index Examples.engine Examples.rejecting Examples.selection reset
                  Examples.one_client (Some Examples.other_pow_brush))
    = Ret (bool_decide (already_resolved reset Examples.one_client
                                         Examples.other_pow_brush)).
Proof.
  eapply (@index_unsupported_scale Examples.engine Examples.rejecting
            Examples.selection reset Examples.one_client
            (Some Examples.other_pow_brush) Examples.other_pow_brush).
  - reflexivity.
  - reflexivity.
  - reflexivity.
  - reflexivity.
  - apply list_elem_of_here.
  - intros Hin.
    repeat (apply elem_of_cons in Hin as [Heq|Hin]; [discriminate Heq|]).
    inversion Hin.
  - eexists. vm_compute. reflexivity.
Defined.

(** C6 as stated fails: once a view has been resolved for source 1, [index]
    with a clause of source 1 whose scale has the unsupported type [pow]
    returns [true]. *)
Lemma index_unsupported_scale_same_source :
  binInterval (H := Examples.engine) Examples.pow_scale = None ∧
  (∃ view, activeView Examples.resolved = Some view ∧
           view_source view = source Examples.pow_brush) ∧
  outcome (@index Examples.engine Examples.rejecting Examples.selection
                  Examples.resolved Examples.one_client (Some Examples.pow_brush))
    = Ret true ∧
  outcome (@index Examples.engine Examples.rejecting Examples.selection
                  Examples.resolved Examples.one_client (Some Examples.pow_brush))
    ≠ Ret false.
Proof.
  split_and!.
  - reflexivity.
  - eexists. split; vm_compute; reflexivity.
  - vm_compute. reflexivity.
  - vm_compute. discriminate.
Qed.

(** C9 (as amended): without an active view [update] throws a TypeError;
    [updateClient] without a filter throws a TypeError when there is no index
    map (as after construction or a change of the client set) and when the
    map has an entry for the client, and returns without doing anything when
    a map is left from an earlier resolution and has no entry for the
    client. *)
Theorem update_without_active_view sel this :
  activeView this = None →
  update sel this = (Throw TypeError, []) ∧
  (∀ c, updateClient sel this c None =
        match indices this with
        | None => (Throw TypeError, [])
        | Some m =>
            match m !! client_id c with
            | Some _ => (Throw TypeError, [])
            | None => (Ret tt, [])
            end
        end) ∧
  (indices this = None →
   ∀ c filter, updateClient sel this c filter = (Throw TypeError, [])).
Proof.
  intros Hview. split_and!.
  - unfold update. now rewrite Hview.
  - intros c. unfold updateClient. rewrite Hview.
    destruct (indices this) as [m|]; [|reflexivity].
    destruct (m !! client_id c); reflexivity.
  - intros Hind c filter. unfold updateClient. now rewrite Hind.
Qed.

Lemma update_without_active_view_witness :
  update Examples.selection reset = (Throw TypeError, []) ∧
  (∀ c, updateClient Examples.selection reset c None = (Throw TypeError, [])) ∧
  (∀ c filter, updateClient Examples.selection reset c filter = (Throw TypeError, [])).
Proof.
  destruct (update_without_active_view Examples.selection reset eq_refl)
    as (Hupdate & Hclient & Hnone).
  split_and!.
  - exact Hupdate.
  - exact Hclient.
  - exact (Hnone eq_refl).
Defined.

(** C9 as stated fails: after a resolution for source 1 and a failed one
    for source 2 the indexer has no active view; [updateClient] for client 7,
    which the cross-filter rule skipped, returns without an exception. *)
Lemma updateClient_silent_after_failed_resolution :
  outcome Examples.first_run_of_two = Ret true ∧
  outcome Examples.failed_run = Ret false ∧
  activeView (final Examples.failed_run) = None ∧
  updateClient Examples.selection (final Examples.failed_run) (Examples.totals 7) None
    = (Ret tt, []) ∧
  updateClient Examples.selection (final Examples.failed_run) (Examples.totals 1) None
    = (Throw TypeError, []).
Proof. split_and!; vm_compute; reflexivity. Qed.

(* ===================================================================== *)
(** * The binning engine *)
(* ===================================================================== *)

Section BinningFacts.
Context `{JSEngine}.

Lemma binFunction_unfold domain range lift sql value :
  binFunction domain range lift sql value =
  {| expr_sql := SFloor (SMul (SCast (SLit (bin_a domain range lift)))
                              (SMinus (sql value) (SCast (SLit (bin_lo domain lift)))));
     expr_columns := columns_of value |}.
Proof. reflexivity. Qed.

(** A supported scale type has a bin function. *)
Lemma binInterval_supported scale lift sql :
  scale_transform (scale_type scale) = Some (lift, sql) →
  binInterval scale = Some (binFunction (domain scale) (range scale) lift sql).
Proof. intros Ht. unfold binInterval. now rewrite Ht. Qed.

(** Division by a zero is never finite. *)
Lemma div_by_zero_not_finite x z :
  is_zero z = true → isFinite (div x z) = false.
Proof. destruct z; try discriminate. intros _. destruct x; reflexivity. Qed.

Lemma div_by_zero_cases x z :
  is_zero z = true →
  div x z = S754_nan ∨ ∃ s, div x z = S754_infinity s.
Proof.
  destruct z; try discriminate. intros _.
  destruct x; simpl; eauto.
Qed.

Lemma Math_min_diag d : Math_min d d = d.
Proof.
  destruct d as [[]|[]| |s m e]; try reflexivity.
  unfold Math_min. simpl.
  rewrite Z.compare_refl, Pos.compare_cont_refl. now destruct s.
Qed.

Lemma Math_max_diag d : Math_max d d = d.
Proof.
  destruct d as [[]|[]| |s m e]; try reflexivity.
  unfold Math_max. simpl.
  rewrite Z.compare_refl, Pos.compare_cont_refl. now destruct s.
Qed.

Lemma sub_diag x : isFinite x = true → sub x x = S754_zero false.
Proof.
  destruct x as [[]|[]| |s m e]; try discriminate; try reflexivity.
  intros _. unfold sub, SFsub, shl_align.
  rewrite Z.min_id, Z.sub_diag. reflexivity.
Qed.

(** The domain [[d, d]]: the lifted endpoints are the same number, and
    their difference is a zero when that number is finite. *)
Lemma degenerate_domain_difference d lift :
  isFinite (lift d) = true →
  is_zero (sub (bin_hi (d, d) lift) (bin_lo (d, d) lift)) = true.
Proof.
  intros Hfin. unfold bin_hi, bin_lo. simpl.
  rewrite Math_min_diag, Math_max_diag, sub_diag by exact Hfin. reflexivity.
Qed.

End BinningFacts.


(* ===================================================================== *)
(** * Values of doubles and signs *)
(* ===================================================================== *)

Section Values.
Lemma iter_xO_pow m p : Zpos (Pos.iter xO m p) = (Zpos m * 2 ^ Zpos p)%Z.
Proof.
  induction p as [|p IH] using Pos.peano_ind.
  - simpl. lia.
  - rewrite Pos.iter_succ, Pos2Z.inj_succ, Z.pow_succ_r by lia.
    rewrite Pos2Z.inj_xO, IH. lia.
Qed.

Lemma two_pow_pos e : (0 < 2 ^ e)%Q.
Proof. apply Qpower_0_lt. reflexivity. Qed.

Lemma shl_align_value s m e ez :
  (ez <= e)%Z →
  (inject_Z (cond_Zopp s (Zpos (fst (shl_align m e ez)))) * 2 ^ ez == value_of s m e)%Q.
Proof.
  intros Hle. unfold shl_align, value_of.
  destruct (ez - e)%Z as [|p|p] eqn:Hd; simpl fst.
  - assert (ez = e) as -> by lia. reflexivity.
  - lia.
  - rewrite iter_xO_pow.
    replace e with (Zpos p + ez)%Z by lia.
    rewrite Qpower_plus by discriminate.
    destruct s; simpl cond_Zopp.
    + rewrite <- Z.mul_opp_l, inject_Z_mult, Zpower_Qpower by lia.
      rewrite Qmult_assoc. reflexivity.
    + rewrite inject_Z_mult, Zpower_Qpower by lia.
      rewrite Qmult_assoc. reflexivity.
Qed.

Lemma Qmult_neg_pos a b : (a < 0)%Q → (0 < b)%Q → (a * b < 0)%Q.
Proof.
  intros Ha Hb.
  pose proof (Qmult_lt_compat_r a 0 b Hb Ha) as Hlt.
  now rewrite Qmult_0_l in Hlt.
Qed.

Lemma Qmult_lt_cancel_pos a b c : (0 < c)%Q → (a < b)%Q → (a * c < b * c)%Q.
Proof. intros Hc Hab. now apply Qmult_lt_compat_r. Qed.

(** The sign of a value. *)
Lemma value_of_sign s m e :
  match s with
  | true => (value_of s m e < 0)%Q
  | false => (0 < value_of s m e)%Q
  end.
Proof.
  pose proof (two_pow_pos e) as Hp. unfold value_of.
  destruct s; simpl cond_Zopp.
  - apply Qmult_neg_pos; [|exact Hp]. unfold Qlt; simpl; lia.
  - apply Qmult_lt_0_compat; [|exact Hp]. unfold Qlt; simpl; lia.
Qed.

(** Rounding keeps the sign it is given. *)
Lemma binary_round_aux_sign sx mx ex lx s m e :
  binary_round_aux prec emax sx mx ex lx = S754_finite s m e → s = sx.
Proof.
  unfold binary_round_aux.
  destruct (shr_fexp prec emax mx ex lx) as [mrs' e'].
  destruct (shr_fexp prec emax _ e' loc_Exact) as [mrs'' e''].
  destruct (shr_m mrs''); try discriminate.
  destruct (Z.leb e'' _); [|discriminate].
  now intros [= <- _ _].
Qed.

Lemma binary_round_sign sx mx ex s m e :
  binary_round prec emax sx mx ex = S754_finite s m e → s = sx.
Proof.
  unfold binary_round. destruct (shl_align _ _ _) as [mz ez].
  apply binary_round_aux_sign.
Qed.

(** The difference of two numbers in increasing order is not negative. *)
Lemma sub_finite_sign hi lo sd md ed :
  sub hi lo = S754_finite sd md ed →
  xle (of_number lo) (of_number hi) →
  sd = false.
Proof.
  destruct hi as [sh|sh| |sh mh eh], lo as [sl|sl| |sl ml el];
    try discriminate; simpl.
  - destruct sh, sl; discriminate.
  - intros [= <- _ _] Hle.
    pose proof (value_of_sign sl ml el) as Hs. destruct sl; [reflexivity|Lqa.lra].
  - destruct sh, sl; discriminate.
  - intros [= <- _ _] Hle.
    pose proof (value_of_sign sh mh eh) as Hs. destruct sh; [Lqa.lra|reflexivity].
  - unfold sub, SFsub, binary_normalize.
    set (ez := Z.min eh el).
    pose proof (shl_align_value sh mh eh ez ltac:(lia)) as Hh.
    pose proof (shl_align_value sl ml el ez ltac:(lia)) as Hl.
    pose proof (two_pow_pos ez) as Hp.
    destruct (_ - _)%Z as [|p|p] eqn:Hd; try discriminate.
    + intros Hr _. now apply binary_round_sign in Hr.
    + intros _ Hle. exfalso.
      assert (Hlt : (inject_Z (cond_Zopp sh (Z.pos (fst (shl_align mh eh ez))))
                     < inject_Z (cond_Zopp sl (Z.pos (fst (shl_align ml el ez)))))%Q).
      { rewrite <- Zlt_Qlt. lia. }
      apply (Qmult_lt_cancel_pos _ _ _ Hp) in Hlt.
      rewrite Hh, Hl in Hlt. Lqa.lra.
Qed.

Lemma div_abs_finite_sign n d sa ma ea :
  div (Math_abs n) d = S754_finite sa ma ea →
  ∃ sd md ed, d = S754_finite sd md ed ∧ sa = sd.
Proof.
  destruct n as [sn|sn| |sn mn en], d as [sd|sd| |sd md ed];
    try discriminate.
  unfold div, SFdiv, Math_abs, SFabs.
  destruct (SFdiv_core_binary _ _ _ _ _ _) as [[mz ez] lz].
  intros Hr. apply binary_round_aux_sign in Hr. subst sa. eauto.
Qed.

(** The factor [a], when it is finite and the lifted domain is in
    increasing order, is not negative. *)
Lemma factor_nonneg n hi lo :
  isFinite (div (Math_abs n) (sub hi lo)) = true →
  xle (of_number lo) (of_number hi) →
  ∃ qa, of_number (div (Math_abs n) (sub hi lo)) = XFin qa ∧ (0 <= qa)%Q.
Proof.
  intros Hfin Hle.
  destruct (div (Math_abs n) (sub hi lo)) as [s|s| |sa ma ea] eqn:Ha;
    try discriminate.
  - exists 0%Q. split; [reflexivity|]. apply Qle_refl.
  - apply div_abs_finite_sign in Ha as (sd & md & ed & Hd & ->).
    apply sub_finite_sign in Hd; [|exact Hle]. subst sd.
    exists (value_of false ma ea). split; [reflexivity|].
    apply Qlt_le_weak, (value_of_sign false).
Qed.

Lemma of_number_finite x : isFinite x = true → ∃ q, of_number x = XFin q.
Proof. destruct x; try discriminate; simpl; eauto. Qed.

Lemma floor_scaled_zero qa q :
  xfloor (xmul (XFin qa) (xsub (XFin q) (XFin q))) = XFin 0.
Proof.
  assert (Hz : (qa * (q - q) == 0)%Q) by ring.
  unfold xfloor, xmul, xsub. now rewrite (Qfloor_comp _ _ Hz).
Qed.

Lemma floor_scaled_mono qa l p q :
  (0 <= qa)%Q → (p <= q)%Q →
  xle (xfloor (xmul (XFin qa) (xsub (XFin p) (XFin l))))
      (xfloor (xmul (XFin qa) (xsub (XFin q) (XFin l)))).
Proof.
  intros Ha Hpq. unfold xfloor, xmul, xsub, xle.
  rewrite <- Zle_Qle. apply Qfloor_resp_le.
  rewrite (Qmult_comm qa (p - l)), (Qmult_comm qa (q - l)).
  apply Qmult_le_compat_r; [Lqa.lra | exact Ha].
Qed.

End Values.

(** C10: when the difference of the lifted domain endpoints is a zero, as
    it is for a domain [[d, d]] with a finite lifted endpoint, the factor
    [a] is the result of a division
    by zero, hence NaN or an infinity; the scale still gets a bin function,
    every expression it makes has that [a] printed into it, and the active
    view of an interval clause over the scale is resolved, with such an
    expression as its column. *)
Theorem binInterval_degenerate_domain `{JSEngine} scale lift sql :
  scale_transform (scale_type scale) = Some (lift, sql) →
  is_zero (sub (bin_hi (domain scale) lift) (bin_lo (domain scale) lift)) = true →
  isFinite (bin_a (domain scale) (range scale) lift) = false ∧
  (bin_a (domain scale) (range scale) lift = S754_nan ∨
   ∃ s, bin_a (domain scale) (range scale) lift = S754_infinity s) ∧
  ∃ bin,
    binInterval scale = Some bin ∧
    (∀ value, expr_sql (bin value) =
       SFloor (SMul (SCast (SLit (bin_a (domain scale) (range scale) lift)))
                    (SMinus (sql value) (SCast (SLit (bin_lo (domain scale) lift)))))) ∧
    (∀ src columns value items,
       getActiveView
         {| source := src;
            schema := Some {| schema_type := "interval"; scales := Some [scale] |};
            predicate := Some {| p_columns := Some columns; p_expr := Some value;
                                 p_value := items |} |}
       = Ret (Some {| view_source := src;
                      view_columns := [("active0", bin value)];
                      view_predicate := ByInterval bin |})).
Proof.
  intros Ht Hzero. split_and!.
  - now apply div_by_zero_not_finite.
  - now apply div_by_zero_cases.
  - exists (binFunction (domain scale) (range scale) lift sql). split_and!.
    + now apply binInterval_supported.
    + intros value. reflexivity.
    + intros src columns value items. unfold getActiveView. simpl.
      rewrite (binInterval_supported _ _ _ Ht). reflexivity.
Qed.

Lemma binInterval_degenerate_domain_witness :
  isFinite Examples.point_domain_factor = false ∧
  (Examples.point_domain_factor = S754_nan ∨
   ∃ s, Examples.point_domain_factor = S754_infinity s) ∧
  ∃ bin,
    binInterval (H := Examples.engine) Examples.point_domain_scale = Some bin ∧
    (∀ value, expr_sql (bin value) =
       SFloor (SMul (SCast (SLit Examples.point_domain_factor))
                    (SMinus (SRef value)
                            (SCast (SLit (bin_lo (domain Examples.point_domain_scale)
                                                 (λ x, x))))))) ∧
    (∀ src columns value items,
       getActiveView (H := Examples.engine)
         {| source := src;
            schema := Some {| schema_type := "interval";
                              scales := Some [Examples.point_domain_scale] |};
            predicate := Some {| p_columns := Some columns; p_expr := Some value;
                                 p_value := items |} |}
       = Ret (Some {| view_source := src;
                      view_columns := [("active0", bin value)];
                      view_predicate := ByInterval bin |})).
Proof.
  apply (@binInterval_degenerate_domain Examples.engine
           Examples.point_domain_scale (λ x, x) SRef).
  - reflexivity.
  - vm_compute. reflexivity.
Defined.

(** The factor of the scale with domain [[5, 5]] and range [[0, 10]] is
    [Infinity]. *)
Example point_domain_factor_infinite :
  Examples.point_domain_factor = S754_infinity false.
Proof. vm_compute. reflexivity. Qed.

Section BinValues.
Context `{JSEngine} `{SqlEngine}.

(** On a linear or temporal scale the lift is the identity, and the SQL
    transform of a numeric input has the value of the number. *)
Lemma scale_transform_identity type lift sql :
  type ∈ identity_types →
  scale_transform type = Some (lift, sql) →
  lift = (λ x, x) ∧ ∀ env x, eval env (sql (numeric_input type x)) = of_number x.
Proof.
  intros Hin Ht. unfold identity_types in Hin.
  repeat (apply elem_of_cons in Hin as [->|Hin]);
    try (injection Ht as <- <-; split; reflexivity).
  inversion Hin.
Qed.

Lemma eval_bin domain range lift sql env v :
  eval env (expr_sql (binFunction domain range lift sql v)) =
  xfloor (xmul (of_number (bin_a domain range lift))
               (xsub (eval env (sql v)) (of_number (bin_lo domain lift)))).
Proof. reflexivity. Qed.

(** The symmetric logarithm is monotone when the logarithm is. *)
Lemma symlog_mono p q r1 r2 :
  monotone_engine → (p <= q)%Q →
  LN (XFin (1 + Qabs p)) = XFin r1 → LN (XFin (1 + Qabs q)) = XFin r2 →
  ((match (p ?= 0)%Q with Eq => 0 | Lt => -1 | Gt => 1 end) * r1
   <= (match (q ?= 0)%Q with Eq => 0 | Lt => -1 | Gt => 1 end) * r2)%Q.
Proof.
  intros (Hmono & _ & Hpos) Hpq H1 H2.
  pose proof (Qabs_nonneg p) as Hap. pose proof (Qabs_nonneg q) as Haq.
  assert (Hr1 : (0 <= r1)%Q) by (apply (Hpos (1 + Qabs p)%Q); [Lqa.lra | exact H1]).
  assert (Hr2 : (0 <= r2)%Q) by (apply (Hpos (1 + Qabs q)%Q); [Lqa.lra | exact H2]).
  destruct (Qcompare_spec p 0) as [Hp|Hp|Hp], (Qcompare_spec q 0) as [Hq|Hq|Hq];
    try Lqa.lra.
  - (* both negative *)
    assert (Hle : (r2 <= r1)%Q).
    { apply (Hmono (1 + Qabs q) (1 + Qabs p) r2 r1)%Q; auto.
      - Lqa.lra.
      - rewrite (Qabs_neg p), (Qabs_neg q) by Lqa.lra. Lqa.lra. }
    Lqa.lra.
  - (* both positive *)
    assert (Hle : (r1 <= r2)%Q).
    { apply (Hmono (1 + Qabs p) (1 + Qabs q) r1 r2)%Q; auto.
      - Lqa.lra.
      - rewrite (Qabs_pos p), (Qabs_pos q) by Lqa.lra. Lqa.lra. }
    Lqa.lra.
Qed.

(** The forward transform of every supported scale type is monotone on
    the numbers of its domain. *)
Lemma transform_mono type lift sql :
  scale_transform type = Some (lift, sql) → monotone_engine →
  ∀ env x1 x2 p q f1 f2,
    of_number x1 = XFin p → of_number x2 = XFin q → (p <= q)%Q →
    transform_domain type p →
    eval env (sql (numeric_input type x1)) = XFin f1 →
    eval env (sql (numeric_input type x2)) = XFin f2 →
    (f1 <= f2)%Q.
Proof.
  intros Ht Heng env x1 x2 p q f1 f2 H1 H2 Hpq Hdom.
  unfold scale_transform, transform_domain, numeric_input in *.
  destruct (String.eqb_spec type "linear") as [->|_].
  { injection Ht as <- <-. simpl. rewrite H1, H2. now intros [= <-] [= <-]. }
  destruct (String.eqb_spec type "log") as [->|_].
  { injection Ht as <- <-. simpl. rewrite H1, H2.
    destruct Heng as (Hmono & _). intros Hf1 Hf2. eapply Hmono; eauto. }
  destruct (String.eqb_spec type "symlog") as [->|_].
  { injection Ht as <- <-. simpl. rewrite H1, H2. simpl.
    destruct (LN (XFin (1 + Qabs p))) as [|s1|r1] eqn:Hr1;
      [ intros [=]
      | unfold scale_inf; destruct (p ?= 0)%Q; intros [=]
      | ].
    destruct (LN (XFin (1 + Qabs q))) as [|s2|r2] eqn:Hr2;
      [ intros _ [=]
      | unfold scale_inf; destruct (q ?= 0)%Q; intros _ [=]
      | ].
    intros [= <-] [= <-]. now apply symlog_mono. }
  destruct (String.eqb_spec type "sqrt") as [->|_].
  { injection Ht as <- <-. simpl. rewrite H1, H2.
    destruct Heng as (_ & Hmono & _). intros Hf1 Hf2. eapply Hmono; eauto. }
  destruct (String.eqb type "utc" || String.eqb type "time"); [|discriminate].
  injection Ht as <- <-. simpl. rewrite H1, H2. now intros [= <-] [= <-].
Qed.

End BinValues.




(** The hypothesis on the database is satisfiable. *)
Example database_monotone : @monotone_engine Examples.database.
Proof.
  split_and!.
  - intros p q r s _ Hpq [= <-] [= <-]. exact Hpq.
  - intros p q r s _ Hpq [= <-] [= <-]. exact Hpq.
  - intros p r Hp [= <-]. Lqa.lra.
Qed.

(** The scenario of the specification: on the linear scale with domain
    [[0, 100]] and range [[0, 10]] the values 20 and 40 fall in bins 2 and
    4. *)
Example bins_of_20_and_40 :
  ∃ bin,
    binInterval (H := Examples.engine) Examples.decile_scale = Some bin ∧
    ∀ env,
      eval (H := Examples.database) env (expr_sql (bin (VNum (of_Z 20)))) = XFin 2 ∧
      eval (H := Examples.database) env (expr_sql (bin (VNum (of_Z 40)))) = XFin 4.
Proof.
  eexists. split; [reflexivity|]. intros env. split; vm_compute; reflexivity.
Qed.

(* ===================================================================== *)
(** * Further properties of the code *)
(* ===================================================================== *)

Set Warnings "-clear-no-such-hyp".

(** ** [subqueryPushdown], lines 254-265 *)

Section PushdownFacts.
Import Pushdown.
Variable store : gmap nat QueryObject.

Lemma reaches_trans a b c :
  reaches store a b → reaches store b c → reaches store a c.
Proof.
  intros Hab Hbc. induction Hbc as [|x c' _ IH Hstep]; [exact Hab|].
  eapply reaches_step; eauto.
Qed.

Lemma walked_nil w : walked store [] w w.
Proof.
  split_and!.
  - reflexivity.
  - exists []. rewrite app_nil_r. split_and!; [reflexivity|constructor|].
    intros x. split; [intros Hx; inversion Hx | tauto].
  - intros r Hr. inversion Hr.
  - tauto.
Qed.

Lemma walked_cons q qs w w1 w' :
  walked store [q] w w1 → walked store qs w1 w' → walked store (q :: qs) w w'.
Proof.
  intros (Ha1 & (new1 & Hs1 & Hd1 & Hn1) & Hc1 & Hx1)
         (Ha2 & (new2 & Hs2 & Hd2 & Hn2) & Hc2 & Hx2).
  split_and!.
  - set_solver.
  - exists (new1 ++ new2). split_and!.
    + rewrite Hs2, Hs1. now rewrite app_assoc.
    + apply NoDup_app. split_and!; auto.
      intros x H1 H2. apply Hn1 in H1. apply Hn2 in H2. tauto.
    + intros x. rewrite elem_of_app, Hn1, Hn2.
      destruct (decide (x ∈ memo w1)); set_solver.
  - intros r Hr. apply elem_of_cons in Hr as [->|Hr]; [|auto].
    apply Ha2, Hc1. set_solver.
  - intros x Hx Hnx. destruct (decide (x ∈ memo w1)) as [Hin|Hout].
    + destruct (Hx1 x Hin Hnx) as ((r & Hr & Hreach) & Hsome & Hch).
      split_and!.
      * exists q. apply list_elem_of_singleton in Hr as ->. split; [set_solver|auto].
      * exact Hsome.
      * intros c Hc. apply Ha2. auto.
    + destruct (Hx2 x Hx Hout) as ((r & Hr & Hreach) & Hsome & Hch).
      split_and!.
      * exists r. split; [set_solver|auto].
      * exact Hsome.
      * exact Hch.
Qed.

Lemma forEach_walked visit :
  (∀ q w w', visit q w = Some (Ret w') → walked store [q] w w') →
  ∀ qs w w', forEach visit qs w = Some (Ret w') → walked store qs w w'.
Proof.
  intros Hvisit. induction qs as [|q qs IH]; intros w w'; simpl.
  - intros [= <-]. apply walked_nil.
  - destruct (visit q w) as [[w1|e]|] eqn:Hq; try discriminate.
    intros Hrest. eapply walked_cons; eauto.
Qed.

Lemma pushdown_walked fuel : ∀ q w w',
  pushdown fuel store q w = Some (Ret w') → walked store [q] w w'.
Proof.
  induction fuel as [|fuel IH]; intros q w w'; simpl; [discriminate|].
  destruct (decide (q ∈ memo w)) as [Hin|Hout].
  { intros [= <-]. destruct (walked_nil w) as (Ha & Hb & _ & Hd).
    split_and!; [exact Ha | exact Hb | | tauto].
    intros r Hr. apply list_elem_of_singleton in Hr as ->. exact Hin. }
  destruct (store !! q) as [o|] eqn:Ho; [|discriminate].
  intros Hwalk. apply (forEach_walked _ (IH)) in Hwalk.
  destruct Hwalk as (Ha & (new & Hs & Hd & Hn) & Hc & Hnew). simpl in *.
  assert (Hqsel : selectable store q ↔
                  select_method o && (0 <? from_length o)%nat = true).
  { unfold selectable. rewrite Ho. split.
    - intros (o' & [= <-] & -> & Hlt). simpl. now apply Nat.ltb_lt.
    - intros Hb. apply andb_true_iff in Hb as [Hb1 Hb2]. apply Nat.ltb_lt in Hb2.
      eauto. }
  split_and!.
  - set_solver.
  - exists ((if select_method o && (0 <? from_length o)%nat then [q] else []) ++ new).
    split_and!.
    + rewrite Hs. destruct (select_method o && _); simpl.
      * now rewrite <- app_assoc.
      * reflexivity.
    + destruct (select_method o && _); simpl; [|exact Hd].
      constructor; [|exact Hd]. intros Hq. apply Hn in Hq. set_solver.
    + intros x. rewrite elem_of_app, Hn.
      destruct (decide (x = q)) as [->|Hne].
      * destruct (select_method o && _) eqn:Hflag.
        -- split; [intros _|intros _; left; set_solver].
           split_and!; [set_solver|auto|]. now apply Hqsel.
        -- split; [intros [Hq|Hq]; [inversion Hq|set_solver]|].
           intros (_ & _ & Hsel). apply Hqsel in Hsel. discriminate.
      * destruct (select_method o && _); set_solver.
  - intros r Hr. apply list_elem_of_singleton in Hr as ->. set_solver.
  - intros x Hx Hnx. destruct (decide (x = q)) as [->|Hne].
    + split_and!.
      * exists q. split; [set_solver|constructor].
      * rewrite Ho. eauto.
      * intros c (o' & Ho' & Hc'). rewrite Ho in Ho'. injection Ho' as <-. auto.
    + destruct (Hnew x Hx ltac:(set_solver)) as ((r & Hr & Hreach) & Hsome & Hch).
      split_and!.
      * exists q. split; [set_solver|].
        apply reaches_trans with r; [|exact Hreach].
        eapply reaches_step; [constructor|]. exists o. auto.
      * exact Hsome.
      * exact Hch.
Qed.

Lemma forEach_total visit bound :
  (∀ q w, size (dom store ∖ memo w) < bound → is_Some (visit q w)) →
  (∀ q w w', visit q w = Some (Ret w') → memo w ⊆ memo w') →
  ∀ qs w, size (dom store ∖ memo w) < bound → is_Some (forEach visit qs w).
Proof.
  intros Htotal Hmono. induction qs as [|q qs IH]; intros w Hsize; simpl; [eauto|].
  destruct (Htotal q w Hsize) as [[w1|e] Hq]; rewrite Hq; [|eauto].
  apply IH. apply Hmono in Hq.
  eapply Nat.le_lt_trans; [|exact Hsize].
  apply subseteq_size. set_solver.
Qed.

Lemma pushdown_total fuel : ∀ q w,
  size (dom store ∖ memo w) < fuel → is_Some (pushdown fuel store q w).
Proof.
  induction fuel as [|fuel IH]; intros q w Hsize; simpl; [lia|].
  destruct (decide (q ∈ memo w)); [eauto|].
  destruct (store !! q) as [o|] eqn:Ho; [|eauto].
  apply (forEach_total _ fuel).
  - exact IH.
  - intros q' w1 w2 Hq'. now apply pushdown_walked in Hq' as (Ha & _).
  - simpl.
    assert (Hsub : dom store ∖ ({[q]} ∪ memo w) ⊂ dom store ∖ memo w).
    { apply elem_of_dom_2 in Ho. set_solver. }
    apply subset_size in Hsub. lia.
Qed.

Lemma forEach_more_fuel (visit visit' : nat → Walk → option (js Walk)) :
  (∀ q w r, visit q w = Some r → visit' q w = Some r) →
  ∀ qs w r, forEach visit qs w = Some r → forEach visit' qs w = Some r.
Proof.
  intros Hv. induction qs as [|q qs IH]; intros w r; simpl; [auto|].
  destruct (visit q w) as [[w1|e]|] eqn:Hq; try discriminate.
  - rewrite (Hv _ _ _ Hq). apply IH.
  - rewrite (Hv _ _ _ Hq). auto.
Qed.

Lemma pushdown_more_fuel fuel : ∀ q w r,
  pushdown fuel store q w = Some r → pushdown (S fuel) store q w = Some r.
Proof.
  induction fuel as [|fuel IH]; intros q w r; [discriminate|].
  intros Hr. simpl in Hr. cbn [pushdown].
  destruct (decide (q ∈ memo w)); [exact Hr|].
  destruct (store !! q) as [o|]; [|exact Hr].
  revert Hr. apply forEach_more_fuel. exact IH.
Qed.

Lemma pushdown_fuel_le fuel fuel' q w r :
  (fuel ≤ fuel')%nat → pushdown fuel store q w = Some r →
  pushdown fuel' store q w = Some r.
Proof.
  induction 1 as [|fuel' _ IH]; [auto|].
  intros Hr. apply pushdown_more_fuel. auto.
Qed.

Lemma forEach_throws visit qs : ∀ w e,
  (∀ q w e, q ∈ qs → visit q w = Some (Throw e) →
            ∃ x, reaches store q x ∧ store !! x = None) →
  forEach visit qs w = Some (Throw e) →
  ∃ q x, q ∈ qs ∧ reaches store q x ∧ store !! x = None.
Proof.
  induction qs as [|q qs IH]; intros w e Hv; simpl; [discriminate|].
  destruct (visit q w) as [[w1|e1]|] eqn:Hq; try discriminate.
  - intros Hrest. apply IH in Hrest as (q' & x & Hin & Hx).
    + exists q', x. split; [set_solver|auto].
    + intros q' w' e' Hin. apply Hv. set_solver.
  - intros _. destruct (Hv q w e1 ltac:(set_solver) Hq) as (x & Hx).
    exists q, x. split; [set_solver|auto].
Qed.

Lemma pushdown_throws fuel : ∀ q w e,
  pushdown fuel store q w = Some (Throw e) →
  ∃ x, reaches store q x ∧ store !! x = None.
Proof.
  induction fuel as [|fuel IH]; intros q w e; simpl; [discriminate|].
  destruct (decide (q ∈ memo w)); [discriminate|].
  destruct (store !! q) as [o|] eqn:Ho.
  - intros Hthrow. apply forEach_throws in Hthrow as (c & x & Hc & Hreach & Hx).
    + exists x. split; [|exact Hx].
      apply reaches_trans with c; [|exact Hreach].
      eapply reaches_step; [constructor|]. exists o. auto.
    + intros q' w' e' _. apply IH.
  - intros _. exists q. split; [constructor|exact Ho].
Qed.

End PushdownFacts.

(** X1: [subqueryPushdown] terminates on every store of query objects,
    also when subqueries are shared or reach themselves: the walk never
    needs more fuel than there are objects, and more fuel does not change
    its result. *)
Theorem subqueryPushdown_terminates store query :
  is_Some (Pushdown.subqueryPushdown store query) ∧
  ∀ fuel, size store < fuel →
    Pushdown.pushdown fuel store query Pushdown.start
    = Pushdown.subqueryPushdown store query.
Proof.
  assert (Hsome : is_Some (Pushdown.subqueryPushdown store query)).
  { apply pushdown_total. simpl.
    rewrite difference_empty_L, size_dom. lia. }
  split; [exact Hsome|].
  intros fuel Hfuel. destruct Hsome as [r Hr]. rewrite Hr.
  apply (pushdown_fuel_le store (S (size store))); [lia | exact Hr].
Qed.

(** X2: when the walk completes, it has seen exactly the objects that can
    be reached from the query, and has called [select] once, and only once,
    on each of them that is a select query with a FROM entry, however many
    paths lead to it. *)
Theorem subqueryPushdown_selects_once store query w :
  Pushdown.subqueryPushdown store query = Some (Ret w) →
  NoDup (Pushdown.selected w) ∧
  (∀ x, x ∈ Pushdown.memo w ↔ reaches store query x) ∧
  (∀ x, x ∈ Pushdown.selected w ↔ reaches store query x ∧ selectable store x).
Proof.
  intros Hw. apply pushdown_walked in Hw
    as (_ & (new & Hsel & Hdup & Hnew) & Hroot & Hin).
  simpl in *. subst new.
  assert (Hmemo : ∀ x, x ∈ Pushdown.memo w ↔ reaches store query x).
  { intros x. split.
    - intros Hx. destruct (Hin x Hx ltac:(set_solver)) as ((r & Hr & Hreach) & _).
      now apply list_elem_of_singleton in Hr as ->.
    - induction 1 as [|x c _ IH Hstep].
      + apply Hroot. set_solver.
      + destruct (Hin x IH ltac:(set_solver)) as (_ & _ & Hch). auto. }
  split_and!; [exact Hdup | exact Hmemo |].
  intros x. rewrite Hnew, Hmemo. set_solver.
Qed.

(** X3: the walk throws exactly when it can reach an identity without an
    object. *)
Theorem subqueryPushdown_throws store query :
  (∃ e, Pushdown.subqueryPushdown store query = Some (Throw e)) ↔
  ∃ x, reaches store query x ∧ store !! x = None.
Proof.
  split.
  - intros [e He]. now apply pushdown_throws in He.
  - intros (x & Hreach & Hx).
    assert (Hsome : is_Some (Pushdown.subqueryPushdown store query)).
    { apply pushdown_total. simpl. rewrite difference_empty_L, size_dom. lia. }
    destruct Hsome as [[w|e] Hr]; [|eauto].
    exfalso. apply pushdown_walked in Hr as (_ & _ & Hroot & Hin). simpl in *.
    assert (Hmem : x ∈ Pushdown.memo w).
    { clear Hx. induction Hreach as [|y c _ IH Hstep].
      - apply Hroot. set_solver.
      - destruct (Hin y IH ltac:(set_solver)) as (_ & _ & Hch). auto. }
    destruct (Hin x Hmem ltac:(set_solver)) as (_ & [o Ho] & _). congruence.
Qed.

Lemma subqueryPushdown_selects_once_witness :
  Pushdown.subqueryPushdown Samples.shared_store 0 = Some (Ret Samples.shared_walk) ∧
  NoDup (Pushdown.selected Samples.shared_walk) ∧
  (∀ x, x ∈ Pushdown.memo Samples.shared_walk ↔ reaches Samples.shared_store 0 x) ∧
  (∀ x, x ∈ Pushdown.selected Samples.shared_walk ↔
        reaches Samples.shared_store 0 x ∧ selectable Samples.shared_store x).
Proof.
  split; [vm_compute; reflexivity|].
  apply (subqueryPushdown_selects_once Samples.shared_store 0 Samples.shared_walk).
  vm_compute. reflexivity.
Defined.

Lemma subqueryPushdown_throws_witness :
  ∃ e, Pushdown.subqueryPushdown Samples.dangling_store 0 = Some (Throw e).
Proof.
  apply (subqueryPushdown_throws Samples.dangling_store 0).
  exists 3%nat. split; [|vm_compute; reflexivity].
  apply reaches_step with 1%nat.
  - apply reaches_step with 0%nat; [constructor|].
    eexists. split; [vm_compute; reflexivity|]. simpl. set_solver.
  - eexists. split; [vm_compute; reflexivity|]. simpl. set_solver.
Defined.
(** ** [getBaseTable], lines 234-252 *)

Section BaseTableTrees.

Lemma Query_nested_ind (P : Query → Prop) :
  (∀ sel from_ g subq, Forall P subq → P (SelectQuery sel from_ g subq)) →
  (∀ subq, Forall P subq → P (SetOperation subq)) →
  ∀ q, P q.
Proof.
  intros Hsel Hset. fix IH 1.
  intros [sel from_ g subq|subq]; [apply Hsel|apply Hset];
    (induction subq as [|q subq IHsubq]; constructor; [apply IH | exact IHsubq]).
Qed.

Lemma merge_branches_total base rest :
  Forall (λ q, ∃ b, getBaseTable q = Ret b) rest →
  ∃ b, merge_branches base rest = Ret b.
Proof.
  induction 1 as [|q rest [b Hq] _ IH]; simpl; [eauto|].
  rewrite Hq. destruct (is_undefined b); [exact IH|].
  destruct (negb (strict_eq b base)); [eauto | exact IH].
Qed.

Lemma merge_branches_result base rest b :
  merge_branches base rest = Ret b → b = BNaN ∨ b = base.
Proof.
  induction rest as [|q rest IH]; simpl.
  - intros [= <-]. now right.
  - destruct (getBaseTable q) as [r|e]; [|discriminate].
    destruct (is_undefined r); [exact IH|].
    destruct (negb (strict_eq r base)); [|exact IH].
    intros [= <-]. now left.
Qed.

Lemma set_operation_total subq :
  subq ≠ [] → Forall (λ q, ∃ b, getBaseTable q = Ret b) subq →
  ∃ b, getBaseTable (SetOperation subq) = Ret b.
Proof.
  intros Hne Hall. destruct Hall as [|q0 rest [b0 Hq0] Hrest]; [congruence|].
  rewrite getBaseTable_set_operation, Hq0. simpl.
  now apply merge_branches_total.
Qed.

Lemma set_operation_leftmost q0 rest b :
  (∀ b, getBaseTable q0 = Ret b → b = BNaN ∨ leftmost q0 = Ret b) →
  getBaseTable (SetOperation (q0 :: rest)) = Ret b →
  b = BNaN ∨ leftmost q0 = Ret b.
Proof.
  intros IH. rewrite getBaseTable_set_operation.
  destruct (getBaseTable q0) as [b0|e] eqn:Hq0; [|discriminate]. simpl.
  intros Hb. apply merge_branches_result in Hb as [->| ->]; [now left|].
  now apply IH.
Qed.

Lemma set_operation_over t q0 rest :
  Forall (λ q, getBaseTable q = Ret (BTable t)) (q0 :: rest) →
  getBaseTable (SetOperation (q0 :: rest)) = Ret (BTable t).
Proof.
  intros Hall. apply Forall_cons in Hall as [Hq0 Hrest].
  rewrite getBaseTable_set_operation, Hq0. simpl.
  apply merge_branches_agree.
  eapply Forall_impl; [exact Hrest|].
  intros q Hq. right. eauto.
Qed.

(** The first subquery is resolved before anything else: when following
    first subqueries ends at a set operation without branches, the
    resolution throws. *)
Lemma leftmost_throws q e :
  leftmost q = Throw e → getBaseTable q = Throw e.
Proof.
  induction q as [sel from_ g subq IH|subq IH] using Query_nested_ind.
  - destruct from_ as [|f0 fs]; [discriminate|].
    destruct subq as [|q0 rest]; [discriminate|].
    apply Forall_cons in IH as [IH0 _].
    change (leftmost (SelectQuery sel (f0 :: fs) g (q0 :: rest))) with (leftmost q0).
    intros Hq0. rewrite getBaseTable_select_subqueries, getBaseTable_set_operation.
    now rewrite (IH0 Hq0).
  - destruct subq as [|q0 rest]; [intros Hthrow; exact Hthrow|].
    apply Forall_cons in IH as [IH0 _].
    change (leftmost (SetOperation (q0 :: rest))) with (leftmost q0).
    intros Hq0. rewrite getBaseTable_set_operation.
    now rewrite (IH0 Hq0).
Qed.

End BaseTableTrees.

(** X4: [getBaseTable] returns a value, and does not throw, on every query
    tree in which each set operation has at least one branch and each select
    query's subqueries are such trees. *)
Theorem getBaseTable_returns q :
  has_branches q = true → ∃ b, getBaseTable q = Ret b.
Proof.
  induction q as [sel from_ g subq IH|subq IH] using Query_nested_ind;
    intros Hwf.
  - destruct from_ as [|f0 fs]; [simpl; eauto|].
    destruct subq as [|q0 rest]; [simpl; eauto|].
    rewrite getBaseTable_select_subqueries.
    apply set_operation_total; [discriminate|].
    cbn [has_branches] in Hwf. rewrite forallb_forall in Hwf.
    rewrite Forall_forall in IH |- *.
    intros q Hq. apply IH; [exact Hq|]. apply Hwf. now apply list_elem_of_In.
  - destruct subq as [|q0 rest]; [discriminate|].
    apply set_operation_total; [discriminate|].
    cbn [has_branches] in Hwf. rewrite forallb_forall in Hwf.
    rewrite Forall_forall in IH |- *.
    intros q Hq. apply IH; [exact Hq|]. apply Hwf. now apply list_elem_of_In.
Qed.

Lemma getBaseTable_returns_witness :
  has_branches Samples.nested_sales = true ∧
  ∃ b, getBaseTable Samples.nested_sales = Ret b.
Proof.
  split; [reflexivity|].
  apply (getBaseTable_returns Samples.nested_sales). reflexivity.
Defined.

(** X5: the later branches of a query never contribute a table: whatever
    [getBaseTable] returns is either NaN or what following the first
    subquery at every level finds. *)
Theorem getBaseTable_leftmost q b :
  getBaseTable q = Ret b → b = BNaN ∨ leftmost q = Ret b.
Proof.
  revert b.
  induction q as [sel from_ g subq IH|subq IH] using Query_nested_ind;
    intros b.
  - destruct from_ as [|f0 fs]; [simpl; intros [= <-]; now right|].
    destruct subq as [|q0 rest]; [simpl; intros [= <-]; now right|].
    rewrite getBaseTable_select_subqueries.
    apply Forall_cons in IH as [IH0 _].
    change (leftmost (SelectQuery sel (f0 :: fs) g (q0 :: rest))) with (leftmost q0).
    now apply set_operation_leftmost.
  - destruct subq as [|q0 rest]; [discriminate|].
    apply Forall_cons in IH as [IH0 _].
    change (leftmost (SetOperation (q0 :: rest))) with (leftmost q0).
    now apply set_operation_leftmost.
Qed.

Lemma getBaseTable_leftmost_witness :
  getBaseTable (SetOperation [Examples.sales; Examples.no_from])
    = Ret (BTable "sales") ∧
  (BTable "sales" = BNaN ∨
   leftmost (SetOperation [Examples.sales; Examples.no_from]) = Ret (BTable "sales")).
Proof.
  split; [reflexivity|].
  apply (getBaseTable_leftmost (SetOperation [Examples.sales; Examples.no_from])).
  reflexivity.
Defined.

(** X6: a query tree whose select queries all have a FROM entry, and whose
    select queries without subqueries all have the table [t] as the first
    one, resolves to [t]. *)
Theorem getBaseTable_common_table t q :
  over t q = true → getBaseTable q = Ret (BTable t).
Proof.
  induction q as [sel from_ g subq IH|subq IH] using Query_nested_ind;
    intros Hover.
  - destruct from_ as [|f0 fs]; [discriminate|].
    destruct subq as [|q0 rest].
    + simpl in *. apply bool_decide_eq_true in Hover.
      unfold table_of. now rewrite Hover.
    + rewrite getBaseTable_select_subqueries.
      apply set_operation_over.
      cbn [over] in Hover. rewrite forallb_forall in Hover.
      rewrite Forall_forall in IH |- *.
      intros q Hq. apply IH; [exact Hq|]. apply Hover. now apply list_elem_of_In.
  - destruct subq as [|q0 rest]; [discriminate|].
    apply set_operation_over.
    cbn [over] in Hover. rewrite forallb_forall in Hover.
    rewrite Forall_forall in IH |- *.
    intros q Hq. apply IH; [exact Hq|]. apply Hover. now apply list_elem_of_In.
Qed.

Lemma getBaseTable_common_table_witness :
  over "sales" Samples.nested_sales = true ∧
  getBaseTable Samples.nested_sales = Ret (BTable "sales").
Proof.
  split; [reflexivity|].
  apply (getBaseTable_common_table "sales" Samples.nested_sales). reflexivity.
Defined.
(** ** [getIndexColumns], lines 192-232 *)

Section ShapeFacts.

Lemma length_kinds (items : list SelectItem) :
  (length (filter (λ it, item_kind it = None) items)
   + length (filter (λ it, is_Some (item_kind it)) items) = length items)%nat.
Proof.
  induction items as [|it items IH]; [reflexivity|].
  rewrite !filter_cons. destruct (item_kind it) as [k|] eqn:Hk.
  - rewrite decide_False by discriminate.
    rewrite decide_True by eauto. simpl. lia.
  - rewrite decide_True by reflexivity.
    rewrite decide_False by (intros [? ?]; discriminate). simpl. lia.
Qed.

Lemma shape_base_table client s :
  getIndexColumns client = Ret (ICShape s) →
  ∃ select from_ groupby subq t,
    client_query client = SelectQuery select from_ groupby subq ∧
    filterIndexable client = true ∧
    getBaseTable (client_query client) = Ret (BTable t) ∧
    t ≠ "" ∧ from s = BTable t ∧
    ∃ aggr' dims' count',
      select_loop (grouping_set groupby) select [] [] None
        = Some (aggr', dims', count') ∧
      aggr s = aggr' ∧ dims s = dims'.
Proof.
  rewrite getIndexColumns_unfold.
  destruct (getBaseTable (client_query client)) as [base|e]; [|discriminate].
  destruct (falsy base) eqn:Hfalsy; [discriminate|].
  destruct (client_query client) as [select from_ groupby subq|subq];
    [|discriminate].
  destruct (filterIndexable client); [|discriminate]. simpl.
  destruct (select_loop _ _ _ _ _) as [[[aggr' dims'] count']|] eqn:Hloop;
    [|discriminate].
  intros [= <-]. simpl.
  destruct base as [|t|]; try discriminate.
  exists select, from_, groupby, subq, t.
  split_and!; try reflexivity; [intros ->; discriminate|].
  exists aggr', dims', count'. split_and!; [exact Hloop | reflexivity | reflexivity].
Qed.

End ShapeFacts.

(** X7: the dimensions of an analysis that gives a shape are the names of
    the selected columns that are not supported aggregates, in selection
    order; each of them is a grouping column; every selected column is
    either a dimension or an aggregate; and the shape's table is the
    non-empty table name [getBaseTable] found. *)
Theorem getIndexColumns_dimensions client s :
  getIndexColumns client = Ret (ICShape s) →
  ∃ select from_ groupby subq t,
    client_query client = SelectQuery select from_ groupby subq ∧
    dims s = si_as <$> filter (λ it, item_kind it = None) select ∧
    (∀ d, d ∈ dims s → Some d ∈ groupby) ∧
    (length (dims s) + length (aggr s) = length select)%nat ∧
    getBaseTable (client_query client) = Ret (BTable t) ∧
    from s = BTable t ∧ t ≠ "".
Proof.
  intros Hshape.
  destruct (shape_base_table _ _ Hshape)
    as (select & from_ & groupby & subq & t & Hq & _ & Hbase & Ht & Hfrom
        & aggr' & dims' & count' & Hloop & Haggr & Hdims).
  exists select, from_, groupby, subq, t.
  assert (Hfit : ¬ Exists (unfit (grouping_set groupby)) select).
  { intros Hex. apply (select_loop_none _ _ [] [] None) in Hex. congruence. }
  apply select_loop_some in Hloop as (-> & -> & _). simpl in *.
  split_and!; auto.
  - intros d. rewrite Hdims, list_elem_of_fmap.
    intros (it & -> & Hit). apply list_elem_of_filter in Hit as [Hkind Hit].
    destruct (decide (si_as it ∈ grouping_set groupby)) as [Hin|Hout].
    + unfold grouping_set in Hin. apply elem_of_list_to_set in Hin.
      apply list_elem_of_omap in Hin as (o & Ho & Hid). simpl in Hid.
      now subst o.
    + exfalso. apply Hfit. apply Exists_exists. exists it. split; [exact Hit|].
      split; assumption.
  - rewrite Hdims, Haggr, length_fmap, length_aggregate_entries.
    apply length_kinds.
Qed.

Lemma getIndexColumns_dimensions_witness :
  getIndexColumns Examples.five_aggregates = Ret (ICShape Examples.five_shape) ∧
  ∃ select from_ groupby subq t,
    client_query Examples.five_aggregates = SelectQuery select from_ groupby subq ∧
    dims Examples.five_shape = si_as <$> filter (λ it, item_kind it = None) select ∧
    (∀ d, d ∈ dims Examples.five_shape → Some d ∈ groupby) ∧
    (length (dims Examples.five_shape) + length (aggr Examples.five_shape)
     = length select)%nat ∧
    getBaseTable (client_query Examples.five_aggregates) = Ret (BTable t) ∧
    from Examples.five_shape = BTable t ∧ t ≠ "".
Proof.
  split; [vm_compute; reflexivity|].
  apply (getIndexColumns_dimensions Examples.five_aggregates Examples.five_shape).
  vm_compute. reflexivity.
Defined.

(** X8: the analysis of a client does not guard the resolution of the base
    table (line 194): when following first subqueries from the client's
    query ends at a set operation without branches, through select queries
    with a FROM entry only, [getIndexColumns] throws, whatever the select
    list, the grouping and the [filterIndexable] flag are. *)
Theorem getIndexColumns_throws client e :
  leftmost (client_query client) = Throw e → getIndexColumns client = Throw e.
Proof.
  intros Hleft. rewrite getIndexColumns_unfold.
  now rewrite (leftmost_throws _ _ Hleft).
Qed.

Lemma getIndexColumns_throws_witness :
  getIndexColumns Samples.over_empty_union = Throw TypeError.
Proof.
  apply (getIndexColumns_throws Samples.over_empty_union TypeError).
  reflexivity.
Defined.
(** ** [index], lines 33-83 *)

Section IndexRuns.
Context `{JSEngine} `{Collaborators}.

Lemma mapM_returns {A B} (f : A → js B) (xs : list A) : ∀ ys,
  mapM f xs = Ret ys → Forall2 (λ x y, f x = Ret y) xs ys.
Proof.
  induction xs as [|x xs IH]; intros ys; simpl.
  - intros [= <-]. constructor.
  - destruct (f x) as [y|e] eqn:Hy; [|discriminate]. simpl.
    destruct (mapM f xs) as [ys'|e]; [|discriminate]. simpl.
    intros [= <-]. constructor; auto.
Qed.

Lemma mapM_throws {A B} (f : A → js B) (xs : list A) x e :
  x ∈ xs → f x = Throw e → mapM f xs = Throw e.
Proof.
  destruct e. induction xs as [|x0 xs IH]; intros Hx Hthrow; [inversion Hx|].
  simpl. apply elem_of_cons in Hx as [<-|Hx].
  - now rewrite Hthrow.
  - destruct (f x0) as [y|[]]; [|reflexivity]. simpl.
    now rewrite IH.
Qed.

Lemma same_from_table t c :
  same_from (BTable t) c = true ↔ ∃ s, c = ICShape s ∧ from s = BTable t.
Proof.
  split.
  - destruct c as [| |s]; simpl; try discriminate.
    intros Heq. exists s. split; [reflexivity|].
    destruct (from s) as [|t'|]; simpl in Heq; try discriminate.
    apply String.eqb_eq in Heq. now subst.
  - intros (s & -> & Hs). simpl. rewrite Hs. apply strict_eq_table.
Qed.

Lemma enabled_common_table (cs : list Client) cols :
  Forall2 (λ c r, getIndexColumns c = Ret r) cs cols →
  forallb (same_from (first_from cols)) cols = true ↔
  ∃ t, ∀ c, c ∈ cs → ∃ s, getIndexColumns c = Ret (ICShape s) ∧ from s = BTable t.
Proof.
  intros Hrel. split.
  - intros Hall. destruct Hrel as [|c0 r0 cs cols Hc0 Hrel].
    { exists "". intros c Hc. inversion Hc. }
    assert (Ht : ∃ t, first_from (r0 :: cols) = BTable t).
    { simpl in Hall. apply andb_true_iff in Hall as [H0' _].
      destruct r0 as [| |s0]; simpl in *; try discriminate.
      destruct (shape_base_table _ _ Hc0)
        as (_ & _ & _ & _ & t & _ & _ & _ & _ & Hfrom & _). eauto. }
    destruct Ht as [t Ht]. rewrite Ht in Hall. exists t.
    rewrite forallb_forall in Hall.
    intros c Hc.
    assert (Hrel' : Forall2 (λ c r, getIndexColumns c = Ret r) (c0 :: cs) (r0 :: cols))
      by now constructor.
    apply list_elem_of_lookup in Hc as [i Hi].
    destruct (Forall2_lookup_l _ _ _ _ _ Hrel' Hi) as (r & Hr & Hcr).
    assert (Hsame : same_from (BTable t) r = true).
    { apply Hall. apply list_elem_of_In. eapply list_elem_of_lookup_2; eauto. }
    apply same_from_table in Hsame as (s & -> & Hs). eauto.
  - intros [t Hall].
    assert (Hcols : Forall (λ r, ∃ s, r = ICShape s ∧ from s = BTable t) cols).
    { induction Hrel as [|c r cs cols Hc _ IH]; constructor.
      - destruct (Hall c) as (s & Hs & Ht); [set_solver|].
        rewrite Hs in Hc. injection Hc as <-. eauto.
      - apply IH. intros c' Hc'. apply Hall. set_solver. }
    assert (Hfirst : cols = [] ∨ first_from cols = BTable t).
    { destruct Hcols as [|r cols (s & -> & Hs) _]; [now left|now right]. }
    destruct Hfirst as [Hnil|Hfirst]; [now rewrite Hnil|]. rewrite Hfirst.
    apply forallb_forall. intros r Hr. apply list_elem_of_In in Hr.
    rewrite Forall_forall in Hcols. apply same_from_table. auto.
Qed.

Lemma getActiveView_source a view :
  getActiveView a = Ret (Some view) → view_source view = source a.
Proof.
  unfold getActiveView.
  destruct (schema a) as [sch|]; [|discriminate].
  destruct (predicate a) as [p|]; [|discriminate].
  destruct (p_columns p) as [columns|]; [|discriminate].
  destruct (if String.eqb (schema_type sch) "interval" then scales sch else None)
    as [scs|].
  - destruct (existsb _ _); [discriminate|].
    destruct (omap id (map binInterval scs)) as [|bin0 [|bin1 bins]].
    + destruct (p_value p) as [items|]; [|discriminate].
      destruct (mapM _ _); simpl; [|discriminate]. now intros [= <-].
    + destruct (call_bin _ _); simpl; [|discriminate]. now intros [= <-].
    + destruct (p_value p) as [items|]; [|discriminate].
      destruct (mapM _ _); simpl; [|discriminate]. now intros [= <-].
  - destruct (String.eqb _ _); [|discriminate]. now intros [= <-].
Qed.

Lemma index_loop_effects sel src a view todo : ∀ m eff m' eff',
  index_loop sel src a view todo m eff = (Ret tt, m', eff') →
  eff' = eff ++ flat_map (statements_of sel src a view) todo.
Proof.
  induction todo as [|c0 todo IH]; intros m eff m' eff'; simpl.
  - intros [= <- <-]. now rewrite app_nil_r.
  - unfold statements_of at 1, skipped, tile_sql.
    destruct (sel_cross sel && skipClient c0 a); [apply IH|].
    destruct (getIndexColumns c0) as [index|e]; [|discriminate]. simpl.
    destruct (count_of index) as [count0|e]; [|discriminate]. simpl.
    intros Hloop. apply IH in Hloop as ->. now rewrite <- app_assoc.
Qed.

Lemma index_loop_keys sel src a view todo : ∀ m eff r m' eff',
  index_loop sel src a view todo m eff = (r, m', eff') →
  ∀ k, is_Some (m' !! k) →
       is_Some (m !! k) ∨
       ∃ c, c ∈ todo ∧ client_id c = k ∧ skipped sel a c = false.
Proof.
  induction todo as [|c0 todo IH]; intros m eff r m' eff'; simpl.
  - intros [= <- <- <-]. auto.
  - destruct (sel_cross sel && skipClient c0 a) eqn:Hskip.
    { intros Hloop k Hk. destruct (IH _ _ _ _ _ Hloop k Hk) as [?|(c & ? & ? & ?)];
        [now left|]. right. exists c. split_and!; auto. set_solver. }
    destruct (getIndexColumns c0) as [index|e]; [|intros [= <- <- <-]; auto].
    destruct (count_of index) as [count0|e]; [|intros [= <- <- <-]; auto].
    intros Hloop k Hk.
    destruct (IH _ _ _ _ _ Hloop k Hk) as [Hin|(c & ? & ? & ?)].
    + destruct (decide (k = client_id c0)) as [->|Hne].
      * right. exists c0. split_and!; auto. set_solver.
      * left. now rewrite lookup_insert_ne in Hin by congruence.
    + right. exists c. split_and!; auto. set_solver.
Qed.

Lemma index_loop_keeps sel src a view c index count0 todo : ∀ m eff r m' eff',
  getIndexColumns c = Ret index → count_of index = Ret count0 →
  (∀ c', c' ∈ todo → client_id c' = client_id c → c' = c) →
  m !! client_id c = Some (tile_entry sel src view c index count0) →
  index_loop sel src a view todo m eff = (r, m', eff') →
  m' !! client_id c = Some (tile_entry sel src view c index count0).
Proof.
  intros m eff r m' eff' Hindex Hcount. revert m eff r m' eff'.
  induction todo as [|c0 todo IH]; intros m eff r m' eff' Huniq Hm; simpl.
  - now intros [= <- <- <-].
  - assert (Huniq' : ∀ c', c' ∈ todo → client_id c' = client_id c → c' = c)
      by (intros c' Hc'; apply Huniq; set_solver).
    destruct (sel_cross sel && skipClient c0 a); [now apply IH|].
    destruct (getIndexColumns c0) as [index0|e] eqn:Hindex0;
      [|now intros [= <- <- <-]].
    destruct (count_of index0) as [count1|e] eqn:Hcount1;
      [|now intros [= <- <- <-]].
    apply IH; [exact Huniq'|].
    destruct (decide (client_id c0 = client_id c)) as [Heq|Hne].
    + assert (c0 = c) as -> by (apply Huniq; [set_solver|exact Heq]).
      rewrite lookup_insert_eq.
      rewrite Hindex in Hindex0. injection Hindex0 as <-.
      rewrite Hcount in Hcount1. injection Hcount1 as <-. reflexivity.
    + now rewrite lookup_insert_ne by congruence.
Qed.

Lemma index_loop_entry sel src a view c todo : ∀ m eff m' eff',
  index_loop sel src a view todo m eff = (Ret tt, m', eff') →
  c ∈ todo → skipped sel a c = false →
  (∀ c', c' ∈ todo → client_id c' = client_id c → c' = c) →
  ∃ index count0,
    getIndexColumns c = Ret index ∧ count_of index = Ret count0 ∧
    m' !! client_id c = Some (tile_entry sel src view c index count0).
Proof.
  induction todo as [|c0 todo IH]; intros m eff m' eff' Hloop Hc Hskip Huniq;
    [inversion Hc|].
  assert (Huniq' : ∀ c', c' ∈ todo → client_id c' = client_id c → c' = c)
    by (intros c' Hc'; apply Huniq; set_solver).
  simpl in Hloop.
  destruct (decide (client_id c0 = client_id c)) as [Heq|Hne].
  - assert (c0 = c) as -> by (apply Huniq; [set_solver|exact Heq]).
    unfold skipped in Hskip. rewrite Hskip in Hloop.
    destruct (getIndexColumns c) as [index|e] eqn:Hindex; [|discriminate].
    destruct (count_of index) as [count0|e] eqn:Hcount; [|discriminate].
    exists index, count0. split_and!; [reflexivity|exact Hcount|].
    eapply index_loop_keeps; [exact Hindex|exact Hcount|exact Huniq'| |exact Hloop].
    now rewrite lookup_insert_eq.
  - apply elem_of_cons in Hc as [->|Hc]; [congruence|].
    destruct (sel_cross sel && skipClient c0 a); [eapply IH; eauto|].
    destruct (getIndexColumns c0) as [index0|e]; [|discriminate].
    destruct (count_of index0) as [count1|e]; [|discriminate].
    eapply IH; eauto.
Qed.

(** A call of [index] that announced the construction and returned [true]
    has resolved a view and run the loop to its end. *)
Lemma index_built sel this cs active message :
  outcome (index sel this cs active) = Ret true →
  ConsoleWarn message ∈ effects (index sel this cs active) →
  ∃ a src view m eff,
    effective_clause sel active = Some a ∧ source a = Some src ∧
    getActiveView a = Ret (Some view) ∧
    index_loop sel src a view (members cs) ∅
               [ConsoleWarn "DATA TILE INDEX CONSTRUCTION"] = (Ret tt, m, eff) ∧
    effects (index sel this cs active) = eff ∧
    enabled (final (index sel this cs active)) = true ∧
    set_id <$> clients (final (index sel this cs active)) = Some (set_id cs) ∧
    indices (final (index sel this cs active)) = Some m ∧
    activeView (final (index sel this cs active)) = Some view.
Proof.
  unfold index.
  destruct (bool_decide (set_id <$> clients this = Some (set_id cs))) eqn:Hset.
  - apply bool_decide_eq_true in Hset.
    destruct (enabled this) eqn:Hen; simpl; [|intros _ Hin; inversion Hin].
    destruct (effective_clause sel active) as [a|] eqn:Ha; simpl;
      [|intros _ Hin; inversion Hin].
    destruct (source a) as [src|] eqn:Hsrc; simpl; [|intros _ Hin; inversion Hin].
    destruct (bool_decide _); simpl; [intros _ Hin; inversion Hin|].
    destruct (getActiveView a) as [[view|]|] eqn:Hview; simpl;
      try (intros _ Hin; inversion Hin; fail).
    destruct (index_loop _ _ _ _ _ _ _) as [[r m] eff] eqn:Hloop; simpl.
    intros Hr _.
    assert (Hrt : r = Ret tt) by (destruct r as [[]|]; [reflexivity|discriminate]).
    subst r. exists a, src, view, m, eff. split_and!; auto.
  - destruct (mapM getIndexColumns (members cs)) as [cols|]; simpl;
      [|intros _ Hin; inversion Hin].
    destruct (forallb _ cols) eqn:Hen; simpl; [|intros _ Hin; inversion Hin].
    destruct (effective_clause sel active) as [a|] eqn:Ha; simpl;
      [|intros _ Hin; inversion Hin].
    destruct (source a) as [src|] eqn:Hsrc; simpl; [|intros _ Hin; inversion Hin].
    destruct (getActiveView a) as [[view|]|] eqn:Hview; simpl;
      try (intros _ Hin; inversion Hin; fail).
    destruct (index_loop _ _ _ _ _ _ _) as [[r m] eff] eqn:Hloop; simpl.
    intros Hr _.
    assert (Hrt : r = Ret tt) by (destruct r as [[]|]; [reflexivity|discriminate]).
    subst r. exists a, src, view, m, eff. split_and!; auto.
Qed.

Lemma index_loop_analysed sel src a view todo : ∀ m eff m' eff',
  index_loop sel src a view todo m eff = (Ret tt, m', eff') →
  ∀ c, c ∈ todo → skipped sel a c = false →
       ∃ sql, tile_sql sel src view c = Ret sql ∧
              statements_of sel src a view c = createIndex (tile_table sql) sql.
Proof.
  induction todo as [|c0 todo IH]; intros m eff m' eff' Hloop c Hc Hskip;
    [inversion Hc|].
  simpl in Hloop. apply elem_of_cons in Hc as [->|Hc].
  - unfold statements_of. rewrite Hskip.
    unfold skipped in Hskip. rewrite Hskip in Hloop. unfold tile_sql.
    destruct (getIndexColumns c0) as [index|e]; [|discriminate]. simpl.
    destruct (count_of index) as [count0|e]; [|discriminate]. simpl. eauto.
  - destruct (sel_cross sel && skipClient c0 a); [eapply IH; eauto|].
    destruct (getIndexColumns c0) as [index0|e]; [|discriminate].
    destruct (count_of index0) as [count1|e]; [|discriminate].
    eapply IH; eauto.
Qed.

(** The indexer after a call of [index] that returned [true]. *)
Lemma index_true_state sel this cs active :
  outcome (index sel this cs active) = Ret true →
  ∃ a src,
    effective_clause sel active = Some a ∧ source a = Some src ∧
    set_id <$> clients (final (index sel this cs active)) = Some (set_id cs) ∧
    enabled (final (index sel this cs active)) = true ∧
    view_source <$> activeView (final (index sel this cs active)) = Some (Some src).
Proof.
  unfold index.
  destruct (bool_decide (set_id <$> clients this = Some (set_id cs))) eqn:Hset.
  - apply bool_decide_eq_true in Hset.
    destruct (enabled this) eqn:Hen; simpl; [|discriminate].
    destruct (effective_clause sel active) as [a|] eqn:Ha; simpl; [|discriminate].
    destruct (source a) as [src|] eqn:Hsrc; simpl; [|discriminate].
    destruct (bool_decide (Some (Some src) = view_source <$> activeView this))
      eqn:Hv; simpl.
    { intros _. apply bool_decide_eq_true in Hv. exists a, src. auto. }
    destruct (getActiveView a) as [[view|]|] eqn:Hview; simpl; try discriminate.
    destruct (index_loop _ _ _ _ _ _ _) as [[r m] eff]; simpl.
    intros _. exists a, src. split_and!; auto.
    now rewrite (getActiveView_source _ _ Hview), Hsrc.
  - destruct (mapM getIndexColumns (members cs)) as [cols|]; simpl; [|discriminate].
    destruct (forallb _ cols) eqn:Hen; simpl; [|discriminate].
    destruct (effective_clause sel active) as [a|] eqn:Ha; simpl; [|discriminate].
    destruct (source a) as [src|] eqn:Hsrc; simpl; [|discriminate].
    destruct (getActiveView a) as [[view|]|] eqn:Hview; simpl; try discriminate.
    destruct (index_loop _ _ _ _ _ _ _) as [[r m] eff]; simpl.
    intros _. exists a, src. split_and!; auto.
    now rewrite (getActiveView_source _ _ Hview), Hsrc.
Qed.

End IndexRuns.

(** X9: when [index] is given a client set other than the one it holds, and
    no analysis throws, it ends up enabled exactly when every client's
    analysis gives a shape and all shapes have the same table; otherwise the
    call returns [false] without any effect, and leaves the indexer with the
    new set and with neither indices nor an active view, whatever the
    clause. *)
Theorem index_new_clients `{JSEngine} `{Collaborators} sel this cs active :
  set_id <$> clients this ≠ Some (set_id cs) →
  (∃ cols, mapM getIndexColumns (members cs) = Ret cols) →
  (enabled (final (index sel this cs active)) = true ↔
     ∃ t, ∀ c, c ∈ members cs →
               ∃ s, getIndexColumns c = Ret (ICShape s) ∧ from s = BTable t) ∧
  (enabled (final (index sel this cs active)) = false →
     index sel this cs active =
       {| outcome := Ret false;
          final := {| enabled := false; clients := Some cs;
                      indices := None; activeView := None |};
          effects := [] |}).
Proof.
  intros Hset [cols Hcols].
  pose proof (enabled_common_table _ _ (mapM_returns _ _ _ Hcols)) as Hiff.
  unfold index. rewrite bool_decide_eq_false_2 by exact Hset.
  rewrite Hcols. simpl.
  destruct (forallb (same_from (first_from cols)) cols) eqn:Hen; simpl.
  - split.
    + rewrite <- Hiff.
      destruct (effective_clause sel active) as [a|]; simpl; [|tauto].
      destruct (source a) as [src|]; simpl; [|tauto].
      destruct (getActiveView a) as [[view|]|]; simpl; try tauto.
      destruct (index_loop _ _ _ _ _ _ _) as [[r m] eff]; simpl. tauto.
    + destruct (effective_clause sel active) as [a|]; simpl; [|discriminate].
      destruct (source a) as [src|]; simpl; [|discriminate].
      destruct (getActiveView a) as [[view|]|]; simpl; try discriminate.
      destruct (index_loop _ _ _ _ _ _ _) as [[r m] eff]; simpl. discriminate.
  - split; [|reflexivity]. rewrite <- Hiff. split; discriminate.
Qed.

Lemma index_new_clients_witness :
  (enabled (final (@index Examples.engine Examples.rejecting Examples.selection reset
                          Examples.two_clients (Some Examples.brush))) = true ↔
     ∃ t, ∀ c, c ∈ members Examples.two_clients →
               ∃ s, getIndexColumns c = Ret (ICShape s) ∧ from s = BTable t) ∧
  (enabled (final (@index Examples.engine Examples.rejecting Examples.selection reset
                          Examples.two_clients (Some Examples.brush))) = false →
     @index Examples.engine Examples.rejecting Examples.selection reset
            Examples.two_clients (Some Examples.brush) =
       {| outcome := Ret false;
          final := {| enabled := false; clients := Some Examples.two_clients;
                      indices := None; activeView := None |};
          effects := [] |}).
Proof.
  apply (@index_new_clients Examples.engine Examples.rejecting Examples.selection
           reset Examples.two_clients (Some Examples.brush)).
  - vm_compute. discriminate.
  - eexists. vm_compute. reflexivity.
Defined.

(** X10: when the base table resolution of one client of a new client set
    throws, [index] throws before it has changed the indexer or had any
    effect. *)
Theorem index_analysis_throws `{JSEngine} `{Collaborators} sel this cs active c e :
  set_id <$> clients this ≠ Some (set_id cs) →
  c ∈ members cs →
  getBaseTable (client_query c) = Throw e →
  index sel this cs active = {| outcome := Throw e; final := this; effects := [] |}.
Proof.
  intros Hset Hc Hthrow.
  assert (Hcols : getIndexColumns c = Throw e).
  { rewrite getIndexColumns_unfold. now rewrite Hthrow. }
  unfold index. rewrite bool_decide_eq_false_2 by exact Hset.
  now rewrite (mapM_throws _ _ _ _ Hc Hcols).
Qed.

Lemma index_analysis_throws_witness :
  @index Examples.engine Examples.rejecting Examples.selection Examples.resolved
         Samples.with_empty_union (Some Examples.brush)
  = {| outcome := Throw TypeError; final := Examples.resolved; effects := [] |}.
Proof.
  apply (@index_analysis_throws Examples.engine Examples.rejecting
           Examples.selection Examples.resolved Samples.with_empty_union
           (Some Examples.brush) (Examples.client_of 8 (SetOperation []))).
  - vm_compute. discriminate.
  - vm_compute. set_solver.
  - reflexivity.
Defined.

(** X11: a call of [index] that returned [true] leaves the indexer such
    that the same call made again returns [true] at once: no effect, no
    change. *)
Theorem index_twice `{JSEngine} `{Collaborators} sel this cs active :
  outcome (index sel this cs active) = Ret true →
  index sel (final (index sel this cs active)) cs active =
    {| outcome := Ret true; final := final (index sel this cs active);
       effects := [] |}.
Proof.
  intros Htrue.
  destruct (index_true_state _ _ _ _ Htrue) as (a & src & Ha & Hsrc & Hset & Hen & Hview).
  unfold index at 1.
  rewrite bool_decide_eq_true_2 by exact Hset.
  rewrite Hen, Ha, Hsrc. simpl.
  now rewrite bool_decide_eq_true_2 by (now rewrite Hview).
Qed.

Lemma index_twice_witness :
  outcome Examples.first_run_of_two = Ret true ∧
  @index Examples.engine Examples.rejecting Examples.selection
         (final Examples.first_run_of_two) Examples.two_clients (Some Examples.brush)
  = {| outcome := Ret true; final := final Examples.first_run_of_two; effects := [] |}.
Proof.
  split; [vm_compute; reflexivity|].
  apply (@index_twice Examples.engine Examples.rejecting Examples.selection reset
           Examples.two_clients (Some Examples.brush)).
  vm_compute. reflexivity.
Defined.

(** X12: after a call of [index] that built the indices, the index map has
    an entry for exactly the clients of the set that the cross-filter rule
    did not skip; for a skipped client, and for a client outside the set,
    [updateClient] returns without sending a query. *)
Theorem index_entries `{JSEngine} `{Collaborators} sel this cs active a :
  outcome (index sel this cs active) = Ret true →
  ConsoleWarn "DATA TILE INDEX CONSTRUCTION" ∈ effects (index sel this cs active) →
  effective_clause sel active = Some a →
  ∃ m, indices (final (index sel this cs active)) = Some m ∧
    (∀ k, is_Some (m !! k) ↔
          ∃ c, c ∈ members cs ∧ client_id c = k ∧ skipped sel a c = false) ∧
    (∀ c, (∀ c', c' ∈ members cs → client_id c' = client_id c →
                 skipped sel a c' = true) →
          ∀ sel' filter,
            updateClient sel' (final (index sel this cs active)) c filter
            = (Ret tt, [])).
Proof.
  intros Htrue Hwarn Ha.
  destruct (index_built _ _ _ _ _ Htrue Hwarn)
    as (a' & src & view & m & eff & Ha' & Hsrc & Hview & Hloop & _ & _ & _ & Hm & _).
  assert (a' = a) as -> by congruence.
  assert (Hkeys : ∀ k, is_Some (m !! k) ↔
            ∃ c, c ∈ members cs ∧ client_id c = k ∧ skipped sel a c = false).
  { intros k. split.
    - intros Hk.
      destruct (index_loop_keys _ _ _ _ _ _ _ _ _ _ Hloop k Hk) as [Hempty|Hc];
        [|exact Hc].
      rewrite lookup_empty in Hempty. now destruct Hempty.
    - intros (c & Hc & <- & Hskip).
      apply index_loop_spec in Hloop as (_ & _ & _ & Hall).
      now apply Hall. }
  exists m. split_and!; [exact Hm | exact Hkeys |].
  intros c Hskipped sel' filter. unfold updateClient. rewrite Hm.
  destruct (m !! client_id c) as [entry|] eqn:Hentry; [|reflexivity].
  destruct (proj1 (Hkeys (client_id c))) as (c' & Hc' & Hid & Hskip); [eauto|].
  rewrite (Hskipped c' Hc' Hid) in Hskip. discriminate.
Qed.

Lemma index_entries_witness :
  ∃ m, indices (final Examples.first_run_of_two) = Some m ∧
    (∀ k, is_Some (m !! k) ↔
          ∃ c, c ∈ members Examples.two_clients ∧ client_id c = k ∧
               @skipped Examples.rejecting Examples.selection Examples.brush c = false) ∧
    (∀ c, (∀ c', c' ∈ members Examples.two_clients → client_id c' = client_id c →
                 @skipped Examples.rejecting Examples.selection Examples.brush c' = true) →
          ∀ sel' filter,
            updateClient sel' (final Examples.first_run_of_two) c filter
            = (Ret tt, [])).
Proof.
  apply (@index_entries Examples.engine Examples.rejecting Examples.selection reset
           Examples.two_clients (Some Examples.brush) Examples.brush).
  - vm_compute. reflexivity.
  - vm_compute. left.
  - reflexivity.
Defined.



(** X14: after a call of [index] that built the indices, the entry of a
    client that was not skipped holds the client's own analysis and the
    table named after the hash of its generation query, and [updateClient]
    sends for it the query over that table with the dimensions and the
    aggregates of the analysis, filtered by the given filter. *)
Theorem index_entry_content `{JSEngine} `{Collaborators} sel this cs active a c :
  outcome (index sel this cs active) = Ret true →
  ConsoleWarn "DATA TILE INDEX CONSTRUCTION" ∈ effects (index sel this cs active) →
  effective_clause sel active = Some a →
  c ∈ members cs → skipped sel a c = false →
  (∀ c', c' ∈ members cs → client_id c' = client_id c → c' = c) →
  ∃ src view m analysis count0,
    source a = Some src ∧
    activeView (final (index sel this cs active)) = Some view ∧
    indices (final (index sel this cs active)) = Some m ∧
    getIndexColumns c = Ret analysis ∧ count_of analysis = Ret count0 ∧
    m !! client_id c = Some (tile_entry sel src view c analysis count0) ∧
    ∀ sel' filter,
      updateClient sel' (final (index sel this cs active)) c (Some filter) =
      (Ret tt,
       [UpdateClient (client_id c)
          {| tq_dims := match analysis with ICShape s => Some (dims s) | _ => None end;
             tq_aggr := match analysis with ICShape s => Some (aggr s) | _ => None end;
             tq_table :=
               tile_table (generation_sql sel src c (view_columns view) count0);
             tq_where := Some filter |}]).
Proof.
  intros Htrue Hwarn Ha Hc Hskip Huniq.
  destruct (index_built _ _ _ _ _ Htrue Hwarn)
    as (a' & src & view & m & eff & Ha' & Hsrc & _ & Hloop & _ & _ & _ & Hm & Hview).
  assert (a' = a) as -> by congruence.
  destruct (index_loop_entry _ _ _ _ _ _ _ _ _ _ Hloop Hc Hskip Huniq)
    as (analysis & count0 & Hindex & Hcount & Hentry).
  exists src, view, m, analysis, count0. split_and!; auto.
  intros sel' filter. unfold updateClient. rewrite Hm, Hentry.
  unfold update_query, tile_entry. simpl. now destruct analysis.
Qed.

Lemma index_entry_content_witness :
  ∃ src view m analysis count0,
    source Examples.brush = Some src ∧
    activeView (final Examples.first_run_of_two) = Some view ∧
    indices (final Examples.first_run_of_two) = Some m ∧
    getIndexColumns (Examples.totals 1) = Ret analysis ∧ count_of analysis = Ret count0 ∧
    m !! client_id (Examples.totals 1)
      = Some (@tile_entry Examples.rejecting Examples.selection src view
                (Examples.totals 1) analysis count0) ∧
    ∀ sel' filter,
      updateClient sel' (final Examples.first_run_of_two) (Examples.totals 1)
                   (Some filter) =
      (Ret tt,
       [UpdateClient (client_id (Examples.totals 1))
          {| tq_dims := match analysis with ICShape s => Some (dims s) | _ => None end;
             tq_aggr := match analysis with ICShape s => Some (aggr s) | _ => None end;
             tq_table :=
               @tile_table Examples.rejecting
                 (@generation_sql Examples.rejecting Examples.selection src
                    (Examples.totals 1) (view_columns view) count0);
             tq_where := Some filter |}]).
Proof.
  apply (@index_entry_content Examples.engine Examples.rejecting Examples.selection
           reset Examples.two_clients (Some Examples.brush) Examples.brush
           (Examples.totals 1)).
  - vm_compute. reflexivity.
  - vm_compute. left.
  - reflexivity.
  - left.
  - reflexivity.
  - intros c' Hc' Hid.
    apply elem_of_cons in Hc' as [->|Hc']; [reflexivity|].
    apply list_elem_of_singleton in Hc' as ->. discriminate.
Defined.

Section IndexEffects.
Context `{JSEngine} `{Collaborators}.

Lemma index_loop_statements sel src a view todo : ∀ m eff r m' eff',
  index_loop sel src a view todo m eff = (r, m', eff') →
  ∃ more, eff' = eff ++ more ∧
          Forall (λ e, ∃ statement, e = Exec statement ∨ e = ConsoleError statement)
                 more.
Proof.
  induction todo as [|c0 todo IH]; intros m eff r m' eff'; simpl.
  - intros [= <- <- <-]. exists []. now rewrite app_nil_r.
  - destruct (sel_cross sel && skipClient c0 a); [apply IH|].
    destruct (getIndexColumns c0) as [index0|e].
    2:{ intros [= <- <- <-]. exists []. now rewrite app_nil_r. }
    destruct (count_of index0) as [count0|e].
    2:{ intros [= <- <- <-]. exists []. now rewrite app_nil_r. }
    intros Hloop. apply IH in Hloop as (more & -> & Hmore).
    eexists. rewrite <- app_assoc. split; [reflexivity|].
    apply Forall_app. split; [|exact Hmore].
    unfold createIndex. destruct (exec_fails _); repeat constructor; eauto.
Qed.

End IndexEffects.

(** X20: whatever [index] is called with, it has no effect at all, or it
    warns first and then only sends statements to the executor and logs
    their rejections: it never sends an update query.  When it returns
    [false] it has had no effect. *)
Theorem index_effects `{JSEngine} `{Collaborators} sel this cs active :
  (effects (index sel this cs active) = [] ∨
   ∃ more,
     effects (index sel this cs active)
       = ConsoleWarn "DATA TILE INDEX CONSTRUCTION" :: more ∧
     Forall (λ e, ∃ statement, e = Exec statement ∨ e = ConsoleError statement)
            more) ∧
  (outcome (index sel this cs active) = Ret false →
   effects (index sel this cs active) = []).
Proof.
  unfold index.
  destruct (if bool_decide _ then _ else _) as [this1|e]; simpl; [|auto].
  destruct (negb (enabled this1)); simpl; [auto|].
  destruct (effective_clause sel active) as [a|]; simpl; [|auto].
  destruct (source a) as [src|]; simpl; [|auto].
  destruct (bool_decide _); simpl; [auto|].
  destruct (getActiveView a) as [[view|]|]; simpl; auto.
  destruct (index_loop _ _ _ _ _ _ _) as [[r m] eff] eqn:Hloop; simpl.
  apply index_loop_statements in Hloop as (more & -> & Hmore).
  split; [right; eauto|].
  destruct r as [[]|]; discriminate.
Qed.
(** ** [update] and [updateClient], lines 85-108 *)

Section Updates.
Context `{JSEngine} `{Collaborators}.

(** An indexer with an active view has a client set and an index map. *)
Lemma reachable_view_state this :
  reachable this → is_Some (activeView this) →
  is_Some (clients this) ∧ is_Some (indices this).
Proof.
  induction 1 as [|sel this cs active Hreach IH].
  - intros [? [=]].
  - unfold index.
    destruct (bool_decide (set_id <$> clients this = Some (set_id cs))) eqn:Hset; simpl.
    + apply bool_decide_eq_true in Hset.
      assert (Hcs : is_Some (clients this)).
      { destruct (clients this); [eauto|discriminate]. }
      destruct (enabled this); simpl; [|exact IH].
      destruct (effective_clause sel active) as [a|]; simpl; [|exact IH].
      destruct (source a) as [src|]; simpl; [|exact IH].
      destruct (bool_decide _); simpl; [exact IH|].
      destruct (getActiveView a) as [[view|]|]; simpl;
        [|intros [? [=]]|exact IH].
      destruct (index_loop _ _ _ _ _ _ _) as [[r m] eff]; simpl. eauto.
    + destruct (mapM getIndexColumns (members cs)) as [cols|]; simpl; [|exact IH].
      destruct (forallb _ cols); simpl; [|intros [? [=]]].
      destruct (effective_clause sel active) as [a|]; simpl; [|intros [? [=]]].
      destruct (source a) as [src|]; simpl; [|intros [? [=]]].
      destruct (getActiveView a) as [[view|]|]; simpl; try (intros [? [=]]; fail).
      destruct (index_loop _ _ _ _ _ _ _) as [[r m] eff]; simpl. eauto.
Qed.

Lemma updateClient_call sel this view a m filter c :
  indices this = Some m → activeView this = Some view →
  sel_active sel = Some a →
  apply_predicate (view_predicate view) (predicate a) = Ret filter →
  updateClient sel this c filter = (Ret tt, update_call m filter c).
Proof.
  intros Hm Hview Ha Hfilter. unfold updateClient, update_call.
  rewrite Hm. destruct (m !! client_id c) as [entry|]; [|reflexivity].
  destruct filter as [f|]; [reflexivity|].
  now rewrite Hview, Ha, Hfilter.
Qed.

Lemma update_all_calls sel this view a m filter todo :
  indices this = Some m → activeView this = Some view →
  sel_active sel = Some a →
  apply_predicate (view_predicate view) (predicate a) = Ret filter →
  update_all sel this todo filter = (Ret tt, flat_map (update_call m filter) todo).
Proof.
  intros Hm Hview Ha Hfilter.
  induction todo as [|c todo IH]; [reflexivity|]. simpl.
  rewrite (updateClient_call _ _ _ _ _ _ c Hm Hview Ha Hfilter), IH.
  reflexivity.
Qed.

Lemma reachable_with_reachable contents this :
  reachable_with contents this → reachable this.
Proof.
  induction 1 as [|sel this cs active _ _ IH]; [constructor|].
  now apply reachable_index.
Qed.

(** The stored set has the members of its identity. *)
Lemma reachable_with_members contents this cs :
  reachable_with contents this → clients this = Some cs →
  members cs = contents (set_id cs).
Proof.
  intros Hreach. revert cs.
  induction Hreach as [|sel this cs0 active Hcs0 _ IH]; intros cs; [discriminate|].
  unfold index.
  destruct (bool_decide (set_id <$> clients this = Some (set_id cs0))); simpl.
  - destruct (negb (enabled this)); simpl; [apply IH|].
    destruct (effective_clause sel active) as [a|]; simpl; [|apply IH].
    destruct (source a) as [src|]; simpl; [|apply IH].
    destruct (bool_decide _); simpl; [apply IH|].
    destruct (getActiveView a) as [[view|]|]; simpl; try apply IH.
    destruct (index_loop _ _ _ _ _ _ _) as [[r m] eff]; simpl. apply IH.
  - destruct (mapM getIndexColumns (members cs0)) as [cols|]; simpl; [|apply IH].
    assert (Hnew : Some cs0 = Some cs → members cs = contents (set_id cs))
      by (now intros [= <-]).
    destruct (negb (forallb _ cols)); simpl; [exact Hnew|].
    destruct (effective_clause sel active) as [a|]; simpl; [|exact Hnew].
    destruct (source a) as [src|]; simpl; [|exact Hnew].
    destruct (getActiveView a) as [[view|]|]; simpl; try exact Hnew.
    destruct (index_loop _ _ _ _ _ _ _) as [[r m] eff]; simpl. exact Hnew.
Qed.

End Updates.

(** X15: provided the client sets have kept the members they had when they
    were given to [index], on an indexer that [index] has left with an
    active view, [update] hands the coordinator one query, with the filter
    the view's predicate makes of the selection's active predicate, for each
    client of the stored set that has an index entry, in the order of the
    set, and none for the others.  The statement is about the queries
    handed over: what the coordinator answers, and so whether the promise
    [update] returns is fulfilled, is no part of it. *)
Theorem update_calls `{JSEngine} `{Collaborators} contents sel this view a filter :
  reachable_with contents this →
  activeView this = Some view →
  sel_active sel = Some a →
  apply_predicate (view_predicate view) (predicate a) = Ret filter →
  ∃ cs m,
    clients this = Some cs ∧ indices this = Some m ∧
    snd (update sel this)
      = flat_map (update_call m filter) (contents (set_id cs)).
Proof.
  intros Hreach Hview Ha Hfilter.
  destruct (reachable_view_state this (reachable_with_reachable _ _ Hreach))
    as [[cs Hcs] [m Hm]]; [rewrite Hview; eauto|].
  exists cs, m. split_and!; [exact Hcs | exact Hm |].
  rewrite <- (reachable_with_members _ _ _ Hreach Hcs).
  unfold update. rewrite Hview, Ha, Hfilter, Hcs.
  now rewrite (update_all_calls _ _ _ _ _ _ (members cs) Hm Hview Ha Hfilter).
Qed.

Lemma update_calls_witness :
  ∃ cs m,
    clients (final Examples.first_run_of_two) = Some cs ∧
    indices (final Examples.first_run_of_two) = Some m ∧
    snd (update Examples.selection (final Examples.first_run_of_two))
      = flat_map (update_call m (Some Samples.brush_filter))
                 (members Examples.two_clients).
Proof.
  apply (@update_calls Examples.engine Examples.rejecting
           (λ _, members Examples.two_clients) Examples.selection
           (final Examples.first_run_of_two) Samples.brush_view Examples.brush
           (Some Samples.brush_filter)).
  - apply reachable_with_index; [reflexivity | apply reachable_with_reset].
  - vm_compute. reflexivity.
  - reflexivity.
  - vm_compute. reflexivity.
Defined.
(** ** [getActiveView], lines 111-141 *)

Section ViewFacts.
Context `{JSEngine}.

Lemma active_names_S n :
  active_names (S n) = active_names n ++ ["active" +:+ pretty n].
Proof. unfold active_names. now rewrite seq_S, fmap_app. Qed.

Lemma imap_names {A B} (g : nat → A → js B) (h : nat → string) (proj : B → list string) :
  (∀ i x y, g i x = Ret y → proj y = [h i]) →
  ∀ items ys, mapM (λ x, x) (imap g items) = Ret ys →
    flat_map proj ys = h <$> seq 0 (length items).
Proof.
  intros Hg items. revert g h Hg.
  induction items as [|it items IH]; intros g h Hg ys; simpl.
  - now intros [= <-].
  - destruct (g 0%nat it) as [y|e] eqn:Hy; [|discriminate]. simpl.
    destruct (mapM (λ x, x) (imap (g ∘ S) items)) as [ys'|e] eqn:Hys;
      [|discriminate]. simpl.
    intros [= <-]. simpl. rewrite (Hg _ _ _ Hy). simpl. f_equal.
    rewrite (IH (g ∘ S) (h ∘ S)); [|intros i x y'; apply Hg|exact Hys].
    now rewrite <- fmap_S_seq, <- list_fmap_compose.
Qed.

Lemma imap_length {A B} (g : nat → A → js B) :
  ∀ items ys, mapM (λ x, x) (imap g items) = Ret ys → length ys = length items.
Proof.
  intros items. revert g.
  induction items as [|it items IH]; intros g ys; simpl.
  - now intros [= <-].
  - destruct (g 0%nat it) as [y|e]; [|discriminate]. simpl.
    destruct (mapM (λ x, x) (imap (g ∘ S) items)) as [ys'|e] eqn:Hys;
      [|discriminate]. simpl.
    intros [= <-]. simpl. f_equal. eapply IH; eauto.
Qed.

Lemma fst_names (cols : list (string * Expr)) :
  flat_map (λ c, [c.1]) cols = cols.*1.
Proof. induction cols as [|c cols IH]; csimpl; [reflexivity|now f_equal]. Qed.

Lemma some_bin_unsupported (scs : list Scale) :
  existsb (λ b, negb (bool_decide (is_Some b))) (map binInterval scs) = true ↔
  ∃ sc, sc ∈ scs ∧ scale_type sc ∉ supported_types.
Proof.
  rewrite existsb_exists. split.
  - intros (b & Hin & Hb). apply in_map_iff in Hin as (sc & <- & Hsc).
    exists sc. split; [now apply list_elem_of_In|].
    apply scale_transform_unsupported.
    unfold binInterval in Hb.
    destruct (scale_transform (scale_type sc)) as [[lift sql]|]; [|reflexivity].
    exfalso. apply negb_true_iff, bool_decide_eq_false in Hb. apply Hb. eauto.
  - intros (sc & Hsc & Htype). exists (binInterval sc). split.
    + apply in_map. now apply list_elem_of_In.
    + now rewrite binInterval_unsupported.
Qed.

End ViewFacts.

(** X16: the view of an interval clause and the filter its predicate makes
    of the clause's own predicate agree on the columns: the view's columns
    are named [active0], [active1], ... in order, and the filter constrains
    these columns, each once and in the same order. *)
Theorem getActiveView_filter_columns `{JSEngine} a sch view f :
  schema a = Some sch → schema_type sch = "interval" →
  getActiveView a = Ret (Some view) →
  apply_predicate (view_predicate view) (predicate a) = Ret (Some f) →
  (view_columns view).*1 = active_names (length (view_columns view)) ∧
  filter_columns f = (view_columns view).*1.
Proof.
  intros Hsch Htype. unfold getActiveView. rewrite Hsch.
  destruct (predicate a) as [p|]; [|discriminate].
  destruct (p_columns p) as [columns|]; [|discriminate].
  rewrite Htype. simpl.
  destruct (scales sch) as [scs|]; [|discriminate].
  destruct (existsb _ _); [discriminate|].
  assert (Hmany : ∀ bins',
    match p_value p with
    | Some items =>
        mapM (λ x, x)
          (imap (λ i it, e ← call_bin (bins' !! i) (it_expr it);
                         Ret ("active" +:+ pretty i, e)) items)
        ≫= λ cols, Ret (Some {| view_source := source a; view_columns := cols;
                                view_predicate := ByIntervals bins' |})
    | None => Throw TypeError
    end = Ret (Some view) →
    apply_predicate (view_predicate view) (Some p) = Ret (Some f) →
    (view_columns view).*1 = active_names (length (view_columns view)) ∧
    filter_columns f = (view_columns view).*1).
  { intros bins'. destruct (p_value p) as [items|] eqn:Hitems; [|discriminate].
    destruct (mapM _ _) as [cols|e] eqn:Hcols; [|discriminate]. simpl.
    intros [= <-]. simpl. rewrite Hitems.
    destruct (mapM (λ x : js Filter, x) _) as [fs|e] eqn:Hfs; [|discriminate].
    simpl. intros [= <-]. simpl.
    pose proof (imap_length _ _ _ Hcols) as Hlen.
    apply (imap_names _ (λ i, "active" +:+ pretty i) (λ c, [c.1])) in Hcols.
    2:{ intros i x y. destruct (call_bin _ _); [|discriminate].
        simpl. now intros [= <-]. }
    apply (imap_names _ (λ i, "active" +:+ pretty i) filter_columns) in Hfs.
    2:{ intros i x y. destruct (it_value x); [|discriminate].
        destruct (bins' !! i); [|discriminate]. now intros [= <-]. }
    rewrite fst_names in Hcols. unfold active_names. rewrite Hlen.
    split; congruence. }
  destruct (omap id (map binInterval scs)) as [|bin0 [|bin1 bins]];
    [apply Hmany| |apply Hmany].
  unfold call_bin. destruct (p_expr p) as [v|]; simpl; [|discriminate].
  intros [= <-]. simpl.
  destruct (p_value p) as [items|]; [|discriminate].
  intros [= <-]. split; reflexivity.
Qed.

Lemma getActiveView_filter_columns_witness :
  getActiveView (H := Examples.engine) Samples.brush2d = Ret (Some Samples.view2d) ∧
  apply_predicate (view_predicate Samples.view2d) (predicate Samples.brush2d)
    = Ret (Some Samples.filter2d) ∧
  (view_columns Samples.view2d).*1
    = active_names (length (view_columns Samples.view2d)) ∧
  filter_columns Samples.filter2d = (view_columns Samples.view2d).*1.
Proof.
  split; [vm_compute; reflexivity|]. split; [vm_compute; reflexivity|].
  eapply (@getActiveView_filter_columns Examples.engine Samples.brush2d _
            Samples.view2d Samples.filter2d).
  - reflexivity.
  - reflexivity.
  - vm_compute. reflexivity.
  - vm_compute. reflexivity.
Defined.

(** X17: [getActiveView] returns [null] in these cases and in no other: the
    clause has no schema; its predicate has no [columns]; the schema is an
    interval schema with a scale of an unsupported type; or the schema is
    not a point schema and is not an interval schema with scales. *)
Theorem getActiveView_null `{JSEngine} a :
  getActiveView a = Ret None ↔
  schema a = None ∨
  predicate a ≫= p_columns = None ∨
  ∃ sch, schema a = Some sch ∧
    ((schema_type sch = "interval" ∧
      ∃ scs sc, scales sch = Some scs ∧ sc ∈ scs ∧
                scale_type sc ∉ supported_types) ∨
     (schema_type sch ≠ "point" ∧
      (schema_type sch ≠ "interval" ∨ scales sch = None))).
Proof.
  unfold getActiveView.
  destruct (schema a) as [sch|]; [|split; auto].
  destruct (predicate a) as [p|]; simpl; [|split; auto].
  destruct (p_columns p) as [columns|]; [|split; auto].
  assert (Hsplit : ∀ (P : Schema → Prop) (r : js (option ActiveView)),
    (r = Ret None ↔ P sch) →
    (r = Ret None ↔
     Some sch = None ∨ Some columns = None ∨ ∃ sch0, Some sch = Some sch0 ∧ P sch0)).
  { intros P r ->. split; [eauto|].
    intros [[=]|[[=]|(sch0 & [= <-] & HP)]]. exact HP. }
  apply (Hsplit (λ sch,
    (schema_type sch = "interval" ∧
      ∃ scs sc, scales sch = Some scs ∧ sc ∈ scs ∧
                scale_type sc ∉ supported_types) ∨
     (schema_type sch ≠ "point" ∧
      (schema_type sch ≠ "interval" ∨ scales sch = None)))).
  destruct (String.eqb (schema_type sch) "interval") eqn:Htype.
  - apply String.eqb_eq in Htype.
    destruct (scales sch) as [scs|] eqn:Hscs.
    + destruct (existsb _ _) eqn:Hbins.
      * apply some_bin_unsupported in Hbins as (sc & Hsc & Hun).
        split; [|reflexivity]. intros _. left. split; [exact Htype|].
        exists scs, sc. auto.
      * split.
        -- destruct (omap id (map binInterval scs)) as [|bin0 [|bin1 bins]].
           ++ destruct (p_value p); [|discriminate].
              destruct (mapM _ _); discriminate.
           ++ unfold call_bin. destruct (p_expr p); discriminate.
           ++ destruct (p_value p); [|discriminate].
              destruct (mapM _ _); discriminate.
        -- intros [(_ & scs' & sc & [= <-] & Hsc & Hun)|(_ & [Hne|[=]])];
             [|congruence].
           assert (Hex : existsb (λ b, negb (bool_decide (is_Some b)))
                                 (map binInterval scs) = true)
             by (apply some_bin_unsupported; eauto).
           congruence.
    + rewrite Htype. simpl. split; [|reflexivity].
      intros _. right. split; [discriminate|now right].
  - apply String.eqb_neq in Htype.
    destruct (String.eqb (schema_type sch) "point") eqn:Hpoint.
    + apply String.eqb_eq in Hpoint. split; [discriminate|].
      intros [(Hint & _)|(Hne & _)]; congruence.
    + apply String.eqb_neq in Hpoint. split; [|reflexivity].
      intros _. right. split; [exact Hpoint|now left].
Qed.

Lemma getActiveView_null_witness :
  getActiveView (H := Examples.engine) Examples.other_pow_brush = Ret None.
Proof.
  apply (@getActiveView_null Examples.engine Examples.other_pow_brush).
  right. right. eexists. split; [reflexivity|].
  left. split; [reflexivity|].
  exists [Examples.pow_scale], Examples.pow_scale.
  split_and!; [reflexivity | apply list_elem_of_here |].
  intros Hin.
  repeat (apply elem_of_cons in Hin as [Heq|Hin]; [discriminate Heq|]).
  inversion Hin.
Defined.
(** ** Table names, lines 76-77 *)

Section TableNameFacts.

Lemma hex_value_digit d :
  (0 <= d < 16)%Z → hex_value (hex_digit d) = Some d.
Proof.
  intros [Hlo Hhi]. destruct d as [|p|p]; [reflexivity| |lia].
  do 4 (destruct p as [p|p|]; try reflexivity; try lia).
Qed.

Lemma to_hex_aux_value fuel : ∀ n acc,
  (0 < fuel)%nat → (0 <= n < 16 ^ Z.of_nat fuel)%Z →
  ∃ k, (1 <= k <= fuel)%nat ∧
       String.length (to_hex_aux fuel n acc) = (k + String.length acc)%nat ∧
       ∀ a0, from_hex_aux (to_hex_aux fuel n acc) a0
             = from_hex_aux acc (a0 * 16 ^ Z.of_nat k + n)%Z.
Proof.
  induction fuel as [|fuel IH]; intros n acc Hfuel Hn; [lia|].
  cbn [to_hex_aux].
  assert (Hdigit : (0 <= n mod 16 < 16)%Z) by (apply Z.mod_pos_bound; lia).
  destruct (n / 16 =? 0)%Z eqn:Hq.
  - apply Z.eqb_eq in Hq. exists 1%nat. split_and!; [lia|lia|reflexivity|].
    intros a0. cbn [from_hex_aux]. rewrite hex_value_digit by exact Hdigit.
    f_equal. pose proof (Z.div_mod n 16). change (16 ^ Z.of_nat 1)%Z with 16%Z. lia.
  - apply Z.eqb_neq in Hq.
    assert (Hpow : (16 ^ Z.of_nat (S fuel) = 16 * 16 ^ Z.of_nat fuel)%Z).
    { rewrite Nat2Z.inj_succ, Z.pow_succ_r by lia. reflexivity. }
    assert (Hn16 : (0 <= n / 16 < 16 ^ Z.of_nat fuel)%Z).
    { split; [apply Z.div_pos; lia|].
      apply Z.div_lt_upper_bound; lia. }
    assert (Hfuel' : (0 < fuel)%nat).
    { destruct fuel; [|lia]. simpl in Hn16. lia. }
    destruct (IH (n / 16)%Z (String (hex_digit (n mod 16)) acc) Hfuel' Hn16)
      as (k & Hk & Hlen & Hval).
    exists (S k). split_and!; [lia|lia| |].
    + rewrite Hlen. simpl. lia.
    + intros a0. rewrite Hval. cbn [from_hex_aux].
      rewrite hex_value_digit by exact Hdigit. f_equal.
      rewrite Nat2Z.inj_succ, Z.pow_succ_r by lia.
      pose proof (Z.div_mod n 16). lia.
Qed.

Lemma to_hex_value n :
  (0 <= n < 2 ^ 32)%Z →
  (1 <= String.length (to_hex n) <= 8)%nat ∧ from_hex (to_hex n) = Some n.
Proof.
  intros Hn. unfold to_hex.
  destruct (to_hex_aux_value 8 n "") as (k & Hk & Hlen & Hval);
    [lia | change (16 ^ Z.of_nat 8)%Z with (2 ^ 32)%Z; exact Hn |].
  change (String.length "") with 0%nat in Hlen. split; [lia|].
  unfold from_hex. destruct (to_hex_aux 8 n "") eqn:Hs; [simpl in Hlen; lia|].
  rewrite Hval. cbn [from_hex_aux]. f_equal.
Qed.

Lemma to_uint32_range x : (0 <= to_uint32 x < 2 ^ 32)%Z.
Proof. unfold to_uint32. apply Z.mod_pos_bound. lia. Qed.

Lemma append_inv_head (prefix a b : string) :
  prefix +:+ a = prefix +:+ b → a = b.
Proof.
  induction prefix as [|c prefix IH]; simpl; [auto|].
  intros [= Heq]. auto.
Qed.

End TableNameFacts.

(** X18: the name of the table of a generation query is [tile_index_]
    followed by one to eight lowercase hexadecimal digits that read back as
    the hash of the query modulo 2^32; two queries get the same table
    exactly when their hashes agree modulo 2^32. *)
Theorem tile_table_name `{Collaborators} sql1 sql2 :
  (∃ digits,
     tile_table sql1 = "tile_index_" +:+ digits ∧
     (1 <= String.length digits <= 8)%nat ∧
     from_hex digits = Some (fnv_hash sql1 mod 2 ^ 32)%Z) ∧
  (tile_table sql1 = tile_table sql2 ↔
   (fnv_hash sql1 mod 2 ^ 32 = fnv_hash sql2 mod 2 ^ 32)%Z).
Proof.
  destruct (to_hex_value _ (to_uint32_range (fnv_hash sql1))) as [Hlen1 Hval1].
  destruct (to_hex_value _ (to_uint32_range (fnv_hash sql2))) as [_ Hval2].
  split.
  - exists (to_hex (to_uint32 (fnv_hash sql1))). auto.
  - unfold tile_table. split.
    + intros Heq. apply append_inv_head in Heq.
      rewrite Heq in Hval1. rewrite Hval1 in Hval2.
      now injection Hval2.
    + unfold to_uint32. now intros ->.
Qed.
(** ** Bin functions, lines 143-182 *)

Section Orientation.

Lemma SFcompare_swap x y : SFcompare y x = CompOpp <$> SFcompare x y.
Proof.
  destruct x as [sx|sx| |sx mx ex], y as [sy|sy| |sy my ey]; simpl;
    try reflexivity; try (now destruct sx); try (now destruct sy);
    try (now destruct sx, sy).
  destruct sx, sy; simpl; try reflexivity.
  - rewrite (Z.compare_antisym ey ex).
    destruct (ey ?= ex)%Z eqn:He; simpl; try reflexivity.
    rewrite !Pos.compare_cont_spec. simpl.
    rewrite (Pos.compare_antisym my mx). now destruct (my ?= mx)%positive.
  - rewrite (Z.compare_antisym ey ex).
    destruct (ey ?= ex)%Z eqn:He; simpl; try reflexivity.
    rewrite !Pos.compare_cont_spec. simpl.
    rewrite (Pos.compare_antisym my mx). now destruct (my ?= mx)%positive.
Qed.

Lemma SFcompare_Eq x y :
  SFcompare x y = Some Eq →
  x = y ∨ ∃ sx sy, x = S754_zero sx ∧ y = S754_zero sy.
Proof.
  destruct x as [sx|sx| |sx mx ex], y as [sy|sy| |sy my ey]; simpl; intros Hcmp;
    try discriminate; eauto;
    try (destruct sx; discriminate); try (destruct sy; discriminate);
    try (destruct sx, sy; (discriminate || auto); fail).
  left.
  assert (Hme : ex = ey ∧ mx = my ∧ sx = sy).
  { destruct sx, sy; try discriminate;
      destruct (ex ?= ey)%Z eqn:He; try discriminate;
      apply Z.compare_eq in He; (split; [exact He|]);
      rewrite Pos.compare_cont_spec in Hcmp; simpl in Hcmp;
      destruct (mx ?= my)%positive eqn:Hm; try discriminate;
      apply Pos.compare_eq in Hm; auto. }
  now destruct Hme as (-> & -> & ->).
Qed.

Lemma Math_min_comm x y : Math_min x y = Math_min y x.
Proof.
  unfold Math_min. rewrite (SFcompare_swap x y).
  destruct (SFcompare x y) as [[]|] eqn:Hcmp; simpl; try reflexivity.
  apply SFcompare_Eq in Hcmp as [->|(sx & sy & -> & ->)]; [reflexivity|].
  now destruct sx, sy.
Qed.

Lemma Math_max_comm x y : Math_max x y = Math_max y x.
Proof.
  unfold Math_max. rewrite (SFcompare_swap x y).
  destruct (SFcompare x y) as [[]|] eqn:Hcmp; simpl; try reflexivity.
  apply SFcompare_Eq in Hcmp as [->|(sx & sy & -> & ->)]; [reflexivity|].
  now destruct sx, sy.
Qed.

(** Rounding does not look at the sign. *)
Lemma binary_round_abs s s' m e :
  SFabs (binary_round prec emax s m e) = SFabs (binary_round prec emax s' m e).
Proof.
  unfold binary_round. destruct (shl_align _ _ _) as [mz ez].
  unfold binary_round_aux.
  destruct (shr_fexp prec emax (Z.pos mz) ez loc_Exact) as [mrs' e'].
  destruct (shr_fexp prec emax _ e' loc_Exact) as [mrs'' e''].
  destruct (shr_m mrs''); try reflexivity.
  destruct (Z.leb e'' _); reflexivity.
Qed.

Lemma binary_normalize_opp_abs m e :
  SFabs (binary_normalize prec emax m e false)
  = SFabs (binary_normalize prec emax (- m) e false).
Proof.
  destruct m as [|p|p]; simpl; [reflexivity| |]; apply binary_round_abs.
Qed.

Lemma sub_swap_abs x y : Math_abs (sub x y) = Math_abs (sub y x).
Proof.
  unfold Math_abs, sub.
  destruct x as [sx|sx| |sx mx ex], y as [sy|sy| |sy my ey]; simpl;
    try reflexivity; try (now destruct sx, sy).
  rewrite (Z.min_comm ey ex).
  rewrite binary_normalize_opp_abs. f_equal. f_equal. lia.
Qed.

End Orientation.

(** X19: the bin function of a scale does not depend on the orientation of
    the scale: exchanging the two ends of the domain and the two ends of the
    range gives the same bin function, for every scale type. *)
Theorem binInterval_orientation `{JSEngine} type d0 d1 r0 r1 :
  binInterval {| scale_type := type; domain := (d1, d0); range := (r1, r0) |} =
  binInterval {| scale_type := type; domain := (d0, d1); range := (r0, r1) |}.
Proof.
  unfold binInterval. simpl.
  destruct (scale_transform type) as [[lift sql]|]; [|reflexivity].
  unfold binFunction. simpl.
  rewrite (Math_min_comm d1 d0), (Math_max_comm d1 d0).
  now rewrite (sub_swap_abs (lift r0) (lift r1)).
Qed.
